(** * node-fs-tree-db: the hierarchical cache and the tree reader

    A shallow embedding of [src/library/cache.js] (class [Cache]) and of the
    read side of [src/library/treedb.js] (class [TreeDB]), and the
    properties that the specification states about them.

    Conventions of the embedding.
    - A JavaScript value is a [value]; an object is the finite map of its own
      properties.  The cache owns its tree: a write through a cursor
      ([target[key] = v]) is rendered by re-inserting the updated child on the
      way back up the path.
    - Every object of the cache is an ordinary object, so it inherits the
      members of [Object.prototype].  [key in target] is true for those
      names, and following one of them leaves the cache tree for a built-in
      object.  The embedding does not describe built-ins: an operation that
      reaches one has the outcome [Foreign].
    - A promise is rendered by the [outcome] it settles with; [Pending] is a
      promise that is never settled.
    - Timers are kept in the cache state together with a clock in
      milliseconds; [elapse] advances the clock and runs the callbacks that
      are due.
    - The file system and Node's [path] module are parameters.  The file
      system does not change while it is read, and no file or directory is
      named [__proto__].
    - A [value] is a tree.  The states of the cache that the embedding
      describes are those in which no object is held at two places (under
      two keys, or below itself), and a value handed to [set] shares no
      object with the tree; the properties that depend on this say so.
    - With the outcome [Foreign] neither the promise nor the objects that the
      loop of [set] may have created on the way are described: the state
      shown is the tree as it was.  The properties about keys that can take
      this way are stated for plain keys, see [plain]. *)

From stdpp Require Import gmap strings list fin_maps pretty.
From Stdlib Require Import ZArith Lia Ascii.

#[local] Set Warnings "-register-all".
#[local] Open Scope string_scope.
#[local] Open Scope list_scope.

(** ** JavaScript values and primitives *)

Module JS.

Inductive value : Type :=
| VUndefined
| VNull
| VBool (b : bool)
| VNum (n : Z)
| VStr (s : string)
| VObj (props : gmap string value).

(** Why a promise was rejected: [reject()] without a reason, an exception
    thrown inside the executor, an error of the file system (with its
    [code] and [message]), or a [new Error(message)]. *)
Inductive reason : Type :=
| NoReason
| TypeError
| ReferenceError
| FsError (code message : string)
| PlainError (message : string).

(** [String(error)] *)
Definition describe (error : reason) : string :=
  match error with
  | NoReason => "undefined"
  | TypeError => "TypeError"
  | ReferenceError => "ReferenceError"
  | FsError _ message => "Error: " +:+ message
  | PlainError message => "Error: " +:+ message
  end.

Inductive outcome (A : Type) : Type :=
| Resolved (a : A)
| Rejected (r : reason)
| Pending
| Foreign.

Arguments Resolved {A} a.
Arguments Rejected {A} r.
Arguments Pending {A}.
Arguments Foreign {A}.

(** [ToBoolean]. *)
Definition truthy (v : value) : bool :=
  match v with
  | VUndefined | VNull => false
  | VBool b => b
  | VNum n => negb (n =? 0)%Z
  | VStr s => negb (String.eqb s "")
  | VObj _ => true
  end.

(** [a || b] *)
Definition or_else (a b : value) : value := if truthy a then a else b.

(** The own property names of [Object.prototype], which every ordinary
    object inherits. *)
Definition Object_prototype : list string :=
  [ "constructor"; "__defineGetter__"; "__defineSetter__"; "hasOwnProperty";
    "__lookupGetter__"; "__lookupSetter__"; "isPrototypeOf";
    "propertyIsEnumerable"; "toString"; "valueOf"; "__proto__";
    "toLocaleString" ].

Definition inherited (key : string) : bool :=
  existsb (String.eqb key) Object_prototype.

(** [s.split(sep)] for a string separator.  With the empty separator the
    string is cut into its characters; otherwise it is cut at every
    occurrence of [sep], scanning from the left.  [skip] counts the
    characters of a separator still to be passed over, [cur] is the piece
    being collected. *)
Fixpoint chars (s : string) : list string :=
  match s with
  | EmptyString => []
  | String ch s' => String ch "" :: chars s'
  end.

Fixpoint split_at (sep : string) (skip : nat) (cur s : string) : list string :=
  match s with
  | EmptyString => [cur]
  | String ch s' =>
      match skip with
      | S k => split_at sep k cur s'
      | O =>
          if String.prefix sep s
          then cur :: split_at sep (String.length sep - 1) "" s'
          else split_at sep 0 (cur +:+ String ch "") s'
      end
  end.

Definition split (sep s : string) : list string :=
  if String.eqb sep "" then chars s else split_at sep 0 "" s.

(** The own enumerable properties of a string: its characters under their
    decimal indices. *)
Fixpoint index_props (i : nat) (s : string) : gmap string value :=
  match s with
  | EmptyString => ∅
  | String ch s' => <[pretty i := VStr (String ch "")]> (index_props (S i) s')
  end.

(** [Object.assign({}, v)]: a new object with the own enumerable properties
    of [v]; [null] and [undefined] contribute nothing, numbers and booleans
    have none. *)
Definition assign_empty (v : value) : gmap string value :=
  match v with
  | VObj m => m
  | VStr s => index_props 0 s
  | _ => ∅
  end.

(** The own properties of a string that cannot be deleted: the indices and
    [length]. *)
Definition string_own (s key : string) : bool :=
  String.eqb key "length" ||
  existsb (fun i => String.eqb key (pretty i)) (seq 0 (String.length s)).

(** A path in a tree of objects, by own properties only: the traversal
    stops with [None] as soon as a segment is absent or the node reached is
    not an object. *)
Fixpoint lookup_path (v : value) (path : list string) : option value :=
  match path with
  | [] => Some v
  | key :: rest =>
      match v with
      | VObj m =>
          match m !! key with
          | Some child => lookup_path child rest
          | None => None
          end
      | _ => None
      end
  end.

End JS.

Import JS.

(** ** [class Cache] *)

Module Cache.

Record config : Type := Config { ttl : value; separator : string }.

(** A pending [setTimeout] callback of [set]: when the clock reaches [due]
    it calls [this.remove(expired)]. *)
Record timer : Type := Timer { due : Z; expired : string }.

Record cache : Type := Mk {
  cacheStorage : value;
  config_of : config;
  clock : Z;
  timers : list timer
}.

(** [constructor (options)]: the defaults, overridden by the options that
    are given. *)
Definition create (ttl_option : option value) (separator_option : option string)
  : cache :=
  {| cacheStorage := VObj ∅;
     config_of := {| ttl := default (VNum 108000) ttl_option;
                     separator := default "/" separator_option |};
     clock := 0;
     timers := [] |}.

Definition with_storage (c : cache) (v : value) : cache :=
  {| cacheStorage := v; config_of := config_of c;
     clock := clock c; timers := timers c |}.

(** The loops of [set] and [remove] run over [path[0 .. length-2]] and then
    use [path[length-1]], which is [undefined] (the property name
    ["undefined"]) for an empty array. *)
Definition path_init (path : list string) : list string := removelast path.
Definition path_last (path : list string) : string := List.last path "undefined".

(** *** [get (key)] *)

(** The loop of [get], from the current [storage] over the segments left.
    After the loop an [undefined] result takes the second [reject], whose
    [debug] call reads the loop variable [i] out of its scope. *)
Fixpoint get_walk (storage : value) (path : list string) : outcome value :=
  match path with
  | [] =>
      match storage with
      | VUndefined => Rejected ReferenceError
      | _ => Resolved storage
      end
  | segment :: rest =>
      match storage with
      | VObj m =>
          match m !! segment with
          | Some v => get_walk v rest
          | None => if inherited segment then Foreign else get_walk VUndefined rest
          end
      | _ => Rejected NoReason
      end
  end.

Definition get (c : cache) (key : string) : outcome value :=
  let path := split (separator (config_of c)) key in
  let storage := VObj (assign_empty (cacheStorage c)) in
  get_walk storage path.

(** *** [set (key, value, ttl)] *)

(** What a walk with a cursor ends with: the tree as updated through the
    cursor, a segment that is not there ([remove] only), an exception, or a
    step onto a built-in object. *)
Inductive walk : Type :=
| Done (root : value)
| Missing
| Throw
| Outside.

Definition reinsert (m : gmap string value) (key : string) (w : walk) : walk :=
  match w with
  | Done child => Done (VObj (<[key := child]> m))
  | other => other
  end.

(** [target[last] = value] in strict mode: a property of a primitive cannot
    be created; the name [__proto__] goes to the inherited setter. *)
Definition assign (target : value) (last : string) (v : value) : walk :=
  match target with
  | VObj m => if String.eqb last "__proto__" then Outside
              else Done (VObj (<[last := v]> m))
  | _ => Throw
  end.

(** The loop of [set] from the cursor [target], followed by the final
    assignment.  [key in target] throws unless [target] is an object. *)
Fixpoint set_walk (target : value) (init : list string) (last : string)
    (v : value) : walk :=
  match init with
  | [] => assign target last v
  | key :: rest =>
      match target with
      | VObj m =>
          match m !! key with
          | Some child => reinsert m key (set_walk child rest last v)
          | None =>
              if inherited key then Outside
              else reinsert m key (set_walk (VObj ∅) rest last v)
          end
      | _ => Throw
      end
  end.

(** The executor of the promise of [set]. *)
Definition set_executor (c : cache) (key : string) (v : value)
  : cache * outcome unit :=
  if (String.length key =? 0)%nat then (with_storage c v, Resolved tt)
  else
    let path := split (separator (config_of c)) key in
    match set_walk (cacheStorage c) (path_init path) (path_last path) v with
    | Done root => (with_storage c root, Resolved tt)
    | Missing => (c, Resolved tt)
    | Throw => (c, Rejected TypeError)
    | Outside => (c, Foreign)
    end.

(** [setTimeout(f, delay)] of Node: a delay that is not a number between 1
    and 2^31-1 becomes 1.  (Strings are not parsed here: [set] passes a
    falsy delay only.) *)
Definition timeout (delay : value) : Z :=
  match delay with
  | VNum n => if ((1 <=? n) && (n <=? 2147483647))%Z then n else 1
  | _ => 1
  end.

(** The pending timers are kept in the order in which they will run: by
    due time, and by registration among equal due times. *)
Fixpoint enqueue (t : timer) (queue : list timer) : list timer :=
  match queue with
  | [] => [t]
  | u :: rest =>
      if (due u <=? due t)%Z then u :: enqueue t rest else t :: u :: rest
  end.

Definition setTimeout (c : cache) (key : string) (delay : value) : cache :=
  {| cacheStorage := cacheStorage c; config_of := config_of c;
     clock := clock c;
     timers := enqueue {| due := clock c + timeout delay; expired := key |}
                 (timers c) |}.

(** [set]: the effective ttl, the executor, and the [then] callback that
    runs when the executor has resolved. *)
Definition set (c : cache) (key : string) (v : value) (ttl_arg : value)
  : cache * outcome unit :=
  let ttl := or_else ttl_arg (ttl (config_of c)) in
  match set_executor c key v with
  | (c', Resolved _) =>
      if negb (truthy ttl) then (setTimeout c' key ttl, Resolved tt)
      else (c', Resolved tt)
  | other => other
  end.

(** *** [remove (key)] *)

(** [delete target[last]] in strict mode. *)
Definition delete_property (target : value) (last : string) : walk :=
  match target with
  | VObj m => Done (VObj (delete last m))
  | VStr s => if string_own s last then Throw else Done target
  | VNum _ | VBool _ => Done target
  | VUndefined | VNull => Throw
  end.

Fixpoint remove_walk (target : value) (init : list string) (last : string)
  : walk :=
  match init with
  | [] => delete_property target last
  | key :: rest =>
      match target with
      | VObj m =>
          match m !! key with
          | Some child => reinsert m key (remove_walk child rest last)
          | None => if inherited key then Outside else Missing
          end
      | _ => Throw
      end
  end.

(** [remove]: [resolve] is called on the no-op path only; after the
    [delete] the promise stays pending. *)
Definition remove (c : cache) (key : string) : cache * outcome unit :=
  let path := split (separator (config_of c)) key in
  match remove_walk (cacheStorage c) (path_init path) (path_last path) with
  | Done root => (with_storage c root, Pending)
  | Missing => (c, Resolved tt)
  | Throw => (c, Rejected TypeError)
  | Outside => (c, Foreign)
  end.

(** *** Timers *)

(** Runs the callbacks that are due, in the order of the queue.  The
    promise of [remove] is dropped by the callback. *)
Fixpoint fire (now : Z) (pending : list timer) (c : cache) : cache :=
  match pending with
  | [] => c
  | t :: rest =>
      if (due t <=? now)%Z then fire now rest (fst (remove c (expired t)))
      else fire now rest c
  end.

Definition elapse (ms : Z) (c : cache) : cache :=
  let now := (clock c + ms)%Z in
  let waiting := filter (fun t => (now < due t)%Z) (timers c) in
  let c' := fire now (timers c) c in
  {| cacheStorage := cacheStorage c'; config_of := config_of c;
     clock := now; timers := waiting |}.

(** *** Notions used to state the properties *)

(** A path is absent from a tree when the traversal by own properties
    fails, or ends at [undefined]. *)
Definition absent (tree : value) (path : list string) : Prop :=
  lookup_path tree path = None ∨ lookup_path tree path = Some VUndefined.

(** No segment of the path is the name of a member of [Object.prototype]. *)
Definition plain (path : list string) : Prop :=
  Forall (fun segment => inherited segment = false) path.

(** The cursor of [set] meets objects only: [target] is an object, and so
    is what every segment of [init] holds, as far as the segments are
    there. *)
Fixpoint traversable (target : value) (init : list string) : bool :=
  match target with
  | VObj m =>
      match init with
      | [] => true
      | key :: rest =>
          match m !! key with
          | Some child => traversable child rest
          | None => true
          end
      end
  | _ => false
  end.

End Cache.

(** ** [class TreeDB]: the read side *)

Module TreeDB.

(** What [fs.lstat] resolves with, as far as the code looks at it. *)
Record stats : Type := Stats { isFile : bool; isDirectory : bool }.

(** A promise of [mz/fs]: fulfilled with a result or rejected with an error. *)
Inductive io (A : Type) : Type :=
| Ok (a : A)
| Fail (error : reason).

Arguments Ok {A} a.
Arguments Fail {A} error.

(** The collaborators of [TreeDB]: the file system ([mz/fs]) and Node's
    [path] module.  They are not part of the repository; every result
    below holds for all of them. *)
Class FileSystem : Type := {
  lstat : string -> io stats;
  readFile : string -> io string;
  readdir : string -> io (list string);
  exists_ : string -> bool;
  mkdir : string -> io unit
}.

Class Path : Type := {
  join : list string -> string;
  basename : string -> string
}.

(** What [readPath] resolves with: a value, or the array of child names. *)
Inductive content : Type :=
| Value (v : value)
| Names (childNodes : list string).

Record treedb : Type := Db {
  rootPath : string;
  root : string;
  cache__ : Cache.cache
}.

Definition with_cache (db : treedb) (c : Cache.cache) : treedb :=
  {| rootPath := rootPath db; root := root db; cache__ := c |}.

(** [error.code] *)
Definition code (error : reason) : option string :=
  match error with
  | FsError c _ => Some c
  | _ => None
  end.

(** The [catch] handler shared by [readPath] and [readBranch]. *)
Definition on_error {A : Type} (absent : A) (error : reason) : outcome A :=
  match code error with
  | Some c => if String.eqb c "ENOENT" then Resolved absent else Rejected error
  | None => Rejected error
  end.

(** [Promise.all] of two groups of promises, as far as settling goes: a
    rejection wins, otherwise one pending promise keeps the whole pending. *)
Definition all (a b : outcome unit) : outcome unit :=
  match a, b with
  | Rejected e, _ => Rejected e
  | _, Rejected e => Rejected e
  | Foreign, _ | _, Foreign => Foreign
  | Pending, _ | _, Pending => Pending
  | Resolved _, Resolved _ => Resolved tt
  end.

(** [nodePath.charAt(0) === '/'] and [nodePath.slice(1, nodePath.length)] *)
Definition trim (nodePath : string) : string :=
  match nodePath with
  | String "/"%char rest => rest
  | _ => nodePath
  end.

Section Collaborators.
Context {fs : FileSystem} {path : Path}.

(** [constructor(options)], without the call of [loadDatabase].  The
    options may give [rootPath] and [cache]; [dirname] is [__dirname]. *)
Definition create (dirname : string) (rootPath_option : option string)
    (cache_option : option (option value * option string)) : treedb :=
  let rootPath := default (join [dirname; ".."; ".."; "db"]) rootPath_option in
  let cache := default (Some (VBool false), None) cache_option in
  {| rootPath := rootPath;
     root := join [rootPath; "storage"];
     cache__ := Cache.create (fst cache) (snd cache) |}.

(** *** [readLeaf (nodePath)] *)
Definition readLeaf (nodePath : string) : outcome content :=
  match readFile nodePath with
  | Ok text => Resolved (Value (VObj {[ basename nodePath := VStr text ]}))
  | Fail error => Rejected error
  end.

(** *** [readPath (nodePath)] *)
Definition readPath (db : treedb) (nodePath : string) : outcome content :=
  let nodePath := join [root db; nodePath] in
  match lstat nodePath with
  | Ok st =>
      if isFile st then readLeaf nodePath
      else if isDirectory st then
        match readdir nodePath with
        | Ok childNodes => Resolved (Names childNodes)
        | Fail error => on_error (Value VUndefined) error
        end
      else Pending
  | Fail error => on_error (Value VUndefined) error
  end.

(** *** [readBranch (nodePath, branch)] *)

(** The child reads of a directory.  They are started together and each
    one writes under its own name in the shared object [sub]; here their
    callbacks run in the order of [childNodes]. *)
Fixpoint read_children
    (read : string -> gmap string value -> option (gmap string value * outcome unit))
    (nodePath : string) (childNodes : list string) (sub : gmap string value)
  : option (gmap string value * outcome unit) :=
  match childNodes with
  | [] => Some (sub, Resolved tt)
  | child :: rest =>
      match read (join [nodePath; child]) sub with
      | None => None
      | Some (sub', first) =>
          match read_children read nodePath rest sub' with
          | None => None
          | Some (sub'', others) => Some (sub'', all first others)
          end
      end
  end.

(** The loop sets [branch[basename][child] = null] for every child before
    any callback of a child read can run. *)
Definition placeholders (childNodes : list string) : gmap string value :=
  foldl (fun sub child => <[child := VNull]> sub) ∅ childNodes.

(** [fuel] bounds the depth of the recursion; [None] is "not enough
    fuel".  The result is the accumulator as the reads leave it, and what
    the promise settles with. *)
Fixpoint readBranch (fuel : nat) (nodePath : string) (branch : gmap string value)
  : option (gmap string value * outcome unit) :=
  match fuel with
  | O => None
  | S fuel' =>
      match lstat nodePath with
      | Ok st =>
          if isFile st then
            match readFile nodePath with
            | Ok text =>
                Some (<[basename nodePath := VStr text]> branch, Resolved tt)
            | Fail error => Some (branch, on_error tt error)
            end
          else if isDirectory st then
            match readdir nodePath with
            | Ok childNodes =>
                match read_children (readBranch fuel') nodePath childNodes
                        (placeholders childNodes) with
                | Some (sub, children) =>
                    Some (<[basename nodePath := VObj sub]> branch, children)
                | None => None
                end
            | Fail error => Some (branch, on_error tt error)
            end
          else Some (branch, Pending)
      | Fail error => Some (branch, on_error tt error)
      end
  end.

(** *** [getBranch (nodePath)] *)
Definition getBranch (fuel : nat) (db : treedb) (nodePath : string)
  : option (treedb * outcome value) :=
  let nodePath := trim nodePath in
  match Cache.get (cache__ db) nodePath with
  | Resolved found => Some (db, Resolved found)
  | Rejected _ =>
      let basePath :=
        join [root db; if truthy (VStr nodePath) then nodePath else ""] in
      match readBranch fuel basePath ∅ with
      | None => None
      | Some (tree, Resolved _) =>
          let c := fst (Cache.set (cache__ db) nodePath (VObj tree) VUndefined) in
          Some (with_cache db c, Resolved (VObj tree))
      | Some (_, Rejected error) => Some (db, Rejected error)
      | Some (_, Pending) => Some (db, Pending)
      | Some (_, Foreign) => Some (db, Foreign)
      end
  | Pending => Some (db, Pending)
  | Foreign => Some (db, Foreign)
  end.

(** *** [loadDatabase ()] *)

(** The first stage: the root exists and is listed, or the three
    directories are made one after the other. *)
Definition scaffold (db : treedb) : io unit :=
  if exists_ (root db) then
    match readdir (root db) with
    | Ok _ => Ok tt
    | Fail error => Fail error
    end
  else
    match mkdir (join [rootPath db]) with
    | Fail error => Fail error
    | Ok _ =>
        match mkdir (join [root db]) with
        | Fail error => Fail error
        | Ok _ => mkdir (join [rootPath db; "schema"])
        end
    end.

(** [tree.storage] *)
Definition storage_of (tree : gmap string value) : value :=
  default VUndefined (tree !! "storage").

Definition loadDatabase (fuel : nat) (db : treedb)
  : option (treedb * outcome value) :=
  match scaffold db with
  | Fail error => Some (db, Rejected (PlainError (describe error)))
  | Ok _ =>
      match readBranch fuel (root db) ∅ with
      | None => None
      | Some (tree, Resolved _) =>
          let c := fst (Cache.set (cache__ db) "" (storage_of tree) (VBool false)) in
          Some (with_cache db c, Resolved (storage_of tree))
      | Some (_, Rejected error) => Some (db, Rejected error)
      | Some (_, Pending) => Some (db, Pending)
      | Some (_, Foreign) => Some (db, Foreign)
      end
  end.

(** *** The tree that a node of the storage stands for *)

(** The data model of the specification: a file is a leaf holding its
    text, a directory is a branch with one child per entry, named by the
    entry.  [materialize] is defined for a node whose subtree can be read
    within [depth] levels and whose entries are the base names of their
    paths. *)
Fixpoint entries (read : string -> option value) (nodePath : string)
    (childNodes : list string) : option (gmap string value) :=
  match childNodes with
  | [] => Some ∅
  | child :: rest =>
      if String.eqb (basename (join [nodePath; child])) child then
        match read (join [nodePath; child]), entries read nodePath rest with
        | Some tree, Some children => Some (<[child := tree]> children)
        | _, _ => None
        end
      else None
  end.

Fixpoint materialize (depth : nat) (nodePath : string) : option value :=
  match depth with
  | O => None
  | S depth' =>
      match lstat nodePath with
      | Ok st =>
          if isFile st then
            match readFile nodePath with
            | Ok text => Some (VStr text)
            | Fail _ => None
            end
          else if isDirectory st then
            match readdir nodePath with
            | Ok childNodes =>
                VObj <$> entries (materialize depth') nodePath childNodes
            | Fail _ => None
            end
          else None
      | Fail _ => None
      end
  end.

(** The directories below a node are nested less than [depth] deep, as
    far as [readBranch] descends: it goes no further at a file, at a node
    that cannot be examined and at a directory that cannot be listed. *)
Fixpoint bounded (depth : nat) (nodePath : string) : bool :=
  match depth with
  | O => false
  | S depth' =>
      match lstat nodePath with
      | Ok st =>
          if isFile st then true
          else if isDirectory st then
            match readdir nodePath with
            | Ok childNodes =>
                forallb (fun child => bounded depth' (join [nodePath; child]))
                  childNodes
            | Fail _ => true
            end
          else true
      | Fail _ => true
      end
  end.

End Collaborators.

(** *** [getPath (nodePath)] *)

Section Nodes.
Context {fs : FileSystem} {path : Path}.

(** The cache is asked first; after a miss the node is read and what was
    read is handed to [cache.set] under the trimmed path.  [None]: the node
    is a directory, and the cache would then hold the array of its child
    names, which [value] does not describe. *)
Definition getPath (db : treedb) (nodePath : string)
  : option (treedb * outcome content) :=
  let nodePath := trim nodePath in
  match Cache.get (cache__ db) nodePath with
  | Resolved found => Some (db, Resolved (Value found))
  | Rejected _ =>
      match readPath db nodePath with
      | Resolved (Value v) =>
          let c := fst (Cache.set (cache__ db) nodePath v VUndefined) in
          Some (with_cache db c, Resolved (Value v))
      | Resolved (Names _) => None
      | Rejected error => Some (db, Rejected error)
      | Pending => Some (db, Pending)
      | Foreign => Some (db, Foreign)
      end
  | Pending => Some (db, Pending)
  | Foreign => Some (db, Foreign)
  end.

End Nodes.

(** *** [writeLeaf (nodePath, content)] *)

(** [fs.writeFile], the one collaborator of the write side. *)
Class FileWriter : Type := {
  writeFile : string -> string -> io unit
}.

(** The [catch] handler of [writeLeaf]: it reads [error.message] for the
    diagnostic and returns; reading a property of [undefined] throws. *)
Definition report (error : reason) : outcome unit :=
  match error with
  | NoReason => Rejected TypeError
  | _ => Resolved tt
  end.

Section Leaves.
Context {writer : FileWriter}.

(** The file is written at [nodePath] as given, and after the write the
    text is handed to [cache.set] under that same string; the promise of
    [set] is the result of the [then] callback, so its rejection reaches
    the [catch] handler too. *)
Definition writeLeaf (db : treedb) (nodePath text : string)
  : treedb * outcome unit :=
  match writeFile nodePath text with
  | Ok _ =>
      match Cache.set (cache__ db) nodePath (VStr text) VUndefined with
      | (c, Resolved _) => (with_cache db c, Resolved tt)
      | (c, Rejected error) => (with_cache db c, report error)
      | (c, Pending) => (with_cache db c, Pending)
      | (c, Foreign) => (with_cache db c, Foreign)
      end
  | Fail error => (db, report error)
  end.

End Leaves.

End TreeDB.

(** ** A small storage, for the examples *)

Module Example.

(** [path.join] and [path.basename] on paths that need no normalising:
    the non-empty parts joined by a slash, and the piece after the last
    slash. *)
Definition join (parts : list string) : string :=
  String.concat "/" (List.filter (fun part => negb (String.eqb part "")) parts).

Definition basename (nodePath : string) : string :=
  List.last (split "/" nodePath) "".

Definition posix : TreeDB.Path :=
  {| TreeDB.join := join; TreeDB.basename := basename |}.

Definition file : TreeDB.stats := TreeDB.Stats true false.
Definition directory : TreeDB.stats := TreeDB.Stats false true.

Definition ENOENT : reason := FsError "ENOENT" "no such file or directory".
Definition EACCES : reason := FsError "EACCES" "permission denied".

(** The storage [/db/storage] with the file [a] ("hello"), the directory
    [b] with the file [c] ("world"), and an entry [locked] that cannot be
    examined. *)
Definition disk : TreeDB.FileSystem :=
  {| TreeDB.lstat nodePath :=
       if String.eqb nodePath "/db/storage" then TreeDB.Ok directory
       else if String.eqb nodePath "/db/storage/a" then TreeDB.Ok file
       else if String.eqb nodePath "/db/storage/b" then TreeDB.Ok directory
       else if String.eqb nodePath "/db/storage/b/c" then TreeDB.Ok file
       else if String.eqb nodePath "/db/storage/locked" then TreeDB.Fail EACCES
       else TreeDB.Fail ENOENT;
     TreeDB.readFile nodePath :=
       if String.eqb nodePath "/db/storage/a" then TreeDB.Ok "hello"
       else if String.eqb nodePath "/db/storage/b/c" then TreeDB.Ok "world"
       else TreeDB.Fail ENOENT;
     TreeDB.readdir nodePath :=
       if String.eqb nodePath "/db/storage" then TreeDB.Ok ["a"; "b"]
       else if String.eqb nodePath "/db/storage/b" then TreeDB.Ok ["c"]
       else TreeDB.Fail ENOENT;
     TreeDB.exists_ nodePath := String.eqb nodePath "/db/storage";
     TreeDB.mkdir _ := TreeDB.Ok tt |}.

(** What [/db/storage] holds. *)
Definition storage : gmap string value :=
  <["a" := VStr "hello"]> {[ "b" := VObj {[ "c" := VStr "world" ]} ]}.

(** [new TreeDB({rootPath: '/db'})] *)
Definition db : TreeDB.treedb :=
  @TreeDB.create posix "/app/library" (Some "/db") None.

(** [new Cache()], and the cache of [new TreeDB()]. *)
Definition fresh : Cache.cache := Cache.create None None.
Definition unpinned : Cache.cache := Cache.create (Some (VBool false)) None.

(** The cache after [set('a', 'x')]. *)
Definition leaf_at_a : Cache.cache :=
  fst (Cache.set fresh "a" (VStr "x") VUndefined).

(** The cache after [set('a', 'v', 1000)]. *)
Definition leaf_at_a_forever : Cache.cache :=
  Cache.with_storage fresh (VObj {[ "a" := VStr "v" ]}).

(** The cache after [set('a/x', 'old')]. *)
Definition branch_at_a : Cache.cache :=
  fst (Cache.set fresh "a/x" (VStr "old") VUndefined).

(** A storage that has changed behind the cache: [a] is now a directory
    with the directory [b], which holds the file [c]; and a database
    whose cache still holds the text ['x'] under [a]. *)
Definition changed : TreeDB.FileSystem :=
  {| TreeDB.lstat nodePath :=
       if String.eqb nodePath "/db/storage" then TreeDB.Ok directory
       else if String.eqb nodePath "/db/storage/a" then TreeDB.Ok directory
       else if String.eqb nodePath "/db/storage/a/b" then TreeDB.Ok directory
       else if String.eqb nodePath "/db/storage/a/b/c" then TreeDB.Ok file
       else TreeDB.Fail ENOENT;
     TreeDB.readFile nodePath :=
       if String.eqb nodePath "/db/storage/a/b/c" then TreeDB.Ok "world"
       else TreeDB.Fail ENOENT;
     TreeDB.readdir nodePath :=
       if String.eqb nodePath "/db/storage" then TreeDB.Ok ["a"]
       else if String.eqb nodePath "/db/storage/a" then TreeDB.Ok ["b"]
       else if String.eqb nodePath "/db/storage/a/b" then TreeDB.Ok ["c"]
       else TreeDB.Fail ENOENT;
     TreeDB.exists_ nodePath := String.eqb nodePath "/db/storage";
     TreeDB.mkdir _ := TreeDB.Ok tt |}.

Definition stale : TreeDB.treedb := TreeDB.with_cache db leaf_at_a.

(** A disk that takes every write, and one that refuses them. *)
Definition writable : TreeDB.FileWriter :=
  {| TreeDB.writeFile _ _ := TreeDB.Ok tt |}.

(** An empty disk. *)
Definition nothing : TreeDB.FileSystem :=
  {| TreeDB.lstat _ := TreeDB.Fail ENOENT;
     TreeDB.readFile _ := TreeDB.Fail ENOENT;
     TreeDB.readdir _ := TreeDB.Fail ENOENT;
     TreeDB.exists_ _ := false;
     TreeDB.mkdir _ := TreeDB.Ok tt |}.

(** [/db/storage] with the entry [gone], which is listed but cannot be
    found any more, the directory [broken] with the entry [locked], and
    the file [secret], which is there but cannot be read. *)
Definition racy : TreeDB.FileSystem :=
  {| TreeDB.lstat nodePath :=
       if String.eqb nodePath "/db/storage" then TreeDB.Ok directory
       else if String.eqb nodePath "/db/storage/a" then TreeDB.Ok file
       else if String.eqb nodePath "/db/storage/broken" then TreeDB.Ok directory
       else if String.eqb nodePath "/db/storage/broken/locked"
            then TreeDB.Fail EACCES
       else if String.eqb nodePath "/db/storage/secret" then TreeDB.Ok file
       else TreeDB.Fail ENOENT;
     TreeDB.readFile nodePath :=
       if String.eqb nodePath "/db/storage/a" then TreeDB.Ok "hello"
       else TreeDB.Fail ENOENT;
     TreeDB.readdir nodePath :=
       if String.eqb nodePath "/db/storage" then TreeDB.Ok ["a"; "gone"]
       else if String.eqb nodePath "/db/storage/broken"
            then TreeDB.Ok ["locked"]
       else TreeDB.Fail ENOENT;
     TreeDB.exists_ nodePath := String.eqb nodePath "/db/storage";
     TreeDB.mkdir _ := TreeDB.Ok tt |}.

End Example.

(** * Properties of the cache *)

Import Cache.

(** ** Paths *)

Lemma chars_nonempty (s : string) : s ≠ "" → chars s ≠ [].
Proof. destruct s; [congruence | discriminate]. Qed.

Lemma split_at_nonempty (sep : string) (skip : nat) (cur s : string) :
  split_at sep skip cur s ≠ [].
Proof.
  revert skip cur. induction s as [|ch s IH]; intros skip cur; cbn [split_at].
  - discriminate.
  - destruct skip; [|apply IH].
    destruct (String.prefix sep (String ch s)); [discriminate | apply IH].
Qed.

Lemma split_nonempty (sep key : string) : key ≠ "" → split sep key ≠ [].
Proof.
  intros Hkey. unfold split. destruct (String.eqb sep "").
  - by apply chars_nonempty.
  - apply split_at_nonempty.
Qed.

Lemma path_init_last (path : list string) :
  path ≠ [] → path_init path ++ [path_last path] = path.
Proof. intros H. symmetry. by apply app_removelast_last. Qed.

Lemma length_zero_empty (key : string) :
  (String.length key =? 0)%nat = true ↔ key = "".
Proof.
  destruct key; simpl; split; try done.
Qed.

(** ** The walks *)

Lemma reinsert_done (m : gmap string value) (key : string) (w : walk) (root : value) :
  reinsert m key w = Done root →
  ∃ child, w = Done child ∧ root = VObj (<[key := child]> m).
Proof. destruct w; simpl; intros H; try discriminate. inversion H. eauto. Qed.

Lemma set_walk_never_missing (target : value) (init : list string)
    (last : string) (v : value) :
  set_walk target init last v ≠ Missing.
Proof.
  revert target. induction init as [|key rest IH]; intros target; simpl.
  - unfold assign. destruct target; try discriminate.
    destruct (String.eqb last "__proto__"); discriminate.
  - destruct target as [| | | | |m]; try discriminate.
    destruct (m !! key) as [child|].
    + specialize (IH child). destruct (set_walk child rest last v); simpl; congruence.
    + destruct (inherited key); [discriminate|].
      specialize (IH (VObj ∅)).
      destruct (set_walk (VObj ∅) rest last v); simpl; congruence.
Qed.

Lemma set_walk_done_object (target : value) (init : list string)
    (last : string) (v root : value) :
  set_walk target init last v = Done root → ∃ m, root = VObj m.
Proof.
  destruct init as [|key rest]; simpl.
  - unfold assign. destruct target; try discriminate.
    destruct (String.eqb last "__proto__"); [discriminate|].
    intros [= <-]. eauto.
  - destruct target as [| | | | |m]; try discriminate.
    destruct (m !! key) as [child|].
    + intros (c & _ & ->)%reinsert_done. eauto.
    + destruct (inherited key); [discriminate|].
      intros (c & _ & ->)%reinsert_done. eauto.
Qed.

(** Reading back along the path that [set] has just written. *)
Lemma get_walk_after_set_walk (target : value) (init : list string)
    (last : string) (v root : value) :
  v ≠ VUndefined →
  set_walk target init last v = Done root →
  get_walk root (init ++ [last]) = Resolved v.
Proof.
  intros Hv. revert target root.
  induction init as [|key rest IH]; intros target root; simpl.
  - unfold assign. destruct target as [| | | | |m]; try discriminate.
    destruct (String.eqb last "__proto__"); [discriminate|].
    intros [= <-]. rewrite lookup_insert_eq. by destruct v.
  - destruct target as [| | | | |m]; try discriminate.
    destruct (m !! key) as [child|].
    + intros (c & Hc & ->)%reinsert_done. rewrite lookup_insert_eq. eauto.
    + destruct (inherited key); [discriminate|].
      intros (c & Hc & ->)%reinsert_done. rewrite lookup_insert_eq. eauto.
Qed.

(** A list that ends with [last] and starts with [k0 :: pre]: what the
    first segment of the walk is. *)
Lemma split_path_head (init : list string) (last k0 k : string)
    (pre rest : list string) :
  init ++ [last] = (k0 :: pre) ++ k :: rest →
  ∃ init', init = k0 :: init' ∧ init' ++ [last] = pre ++ k :: rest.
Proof.
  destruct init as [|key init']; simpl.
  - intros [= _ H]. by destruct pre.
  - intros [= -> H]. eauto.
Qed.

Lemma set_walk_lookup (target : value) (init : list string)
    (last : string) (v root : value) :
  set_walk target init last v = Done root →
  lookup_path root (init ++ [last]) = Some v.
Proof.
  revert target root.
  induction init as [|key rest IH]; intros target root; simpl.
  - unfold assign. destruct target as [| | | | |m]; try discriminate.
    destruct (String.eqb last "__proto__"); [discriminate|].
    intros [= <-]. by rewrite lookup_insert_eq.
  - destruct target as [| | | | |m]; try discriminate.
    destruct (m !! key) as [child|].
    + intros (c & Hc & ->)%reinsert_done. rewrite lookup_insert_eq. eauto.
    + destruct (inherited key); [discriminate|].
      intros (c & Hc & ->)%reinsert_done. rewrite lookup_insert_eq. eauto.
Qed.

(** After [set], every proper prefix of the path leads to an object. *)
Lemma set_walk_branches (target : value) (init : list string)
    (last : string) (v root : value) (pre : list string) (k : string)
    (rest : list string) :
  set_walk target init last v = Done root →
  init ++ [last] = pre ++ k :: rest →
  ∃ m, lookup_path root pre = Some (VObj m).
Proof.
  revert target root init.
  induction pre as [|k0 pre IH]; intros target root init Hset Hpath.
  - apply set_walk_done_object in Hset as [m ->]. simpl. eauto.
  - apply split_path_head in Hpath as (init' & -> & Hpath).
    simpl in Hset. destruct target as [| | | | |m]; try discriminate.
    destruct (m !! k0) as [child|].
    + apply reinsert_done in Hset as (c & Hc & ->).
      simpl. rewrite lookup_insert_eq. eauto.
    + destruct (inherited k0); [discriminate|].
      apply reinsert_done in Hset as (c & Hc & ->).
      simpl. rewrite lookup_insert_eq. eauto.
Qed.

(** An object that was on the path before [set] is still there, and all
    its properties but the one the path goes through are as before. *)
Lemma set_walk_siblings (target : value) (init : list string)
    (last : string) (v root : value) (pre : list string) (k : string)
    (rest : list string) (m : gmap string value) :
  set_walk target init last v = Done root →
  init ++ [last] = pre ++ k :: rest →
  lookup_path target pre = Some (VObj m) →
  ∃ m', lookup_path root pre = Some (VObj m') ∧
        ∀ k', k' ≠ k → m' !! k' = m !! k'.
Proof.
  revert target root init.
  induction pre as [|k0 pre IH]; intros target root init Hset Hpath Hpre.
  - simpl in Hpre. injection Hpre as ->. simpl.
    destruct init as [|key init']; simpl in *.
    + injection Hpath as <- _. unfold assign in Hset.
      destruct (String.eqb last "__proto__"); [discriminate|].
      injection Hset as <-. eexists; split; [done|].
      intros k' Hk'. by rewrite lookup_insert_ne.
    + injection Hpath as -> _.
      assert (∃ c, root = VObj (<[k := c]> m)) as [c ->].
      { destruct (m !! k) as [child|].
        - apply reinsert_done in Hset as (c & _ & ->). eauto.
        - destruct (inherited k); [discriminate|].
          apply reinsert_done in Hset as (c & _ & ->). eauto. }
      eexists; split; [done|].
      intros k' Hk'. by rewrite lookup_insert_ne.
  - apply split_path_head in Hpath as (init' & -> & Hpath).
    simpl in Hset, Hpre. destruct target as [| | | | |m0]; try discriminate.
    destruct (m0 !! k0) as [child|]; [|discriminate].
    apply reinsert_done in Hset as (c & Hc & ->).
    simpl. rewrite lookup_insert_eq. eauto.
Qed.

(** The same for [remove]. *)
Lemma remove_walk_siblings (target : value) (init : list string)
    (last : string) (root : value) (pre : list string) (k : string)
    (rest : list string) (m : gmap string value) :
  remove_walk target init last = Done root →
  init ++ [last] = pre ++ k :: rest →
  lookup_path target pre = Some (VObj m) →
  ∃ m', lookup_path root pre = Some (VObj m') ∧
        ∀ k', k' ≠ k → m' !! k' = m !! k'.
Proof.
  revert target root init.
  induction pre as [|k0 pre IH]; intros target root init Hrm Hpath Hpre.
  - simpl in Hpre. injection Hpre as ->. simpl.
    destruct init as [|key init']; simpl in *.
    + injection Hpath as <- _. injection Hrm as <-.
      eexists; split; [done|].
      intros k' Hk'. by rewrite lookup_delete_ne.
    + injection Hpath as -> _.
      destruct (m !! k) as [child|].
      * apply reinsert_done in Hrm as (c & _ & ->).
        eexists; split; [done|].
        intros k' Hk'. by rewrite lookup_insert_ne.
      * destruct (inherited k); discriminate.
  - apply split_path_head in Hpath as (init' & -> & Hpath).
    simpl in Hrm, Hpre. destruct target as [| | | | |m0]; try discriminate.
    destruct (m0 !! k0) as [child|]; [|discriminate].
    apply reinsert_done in Hrm as (c & Hc & ->).
    simpl. rewrite lookup_insert_eq. eauto.
Qed.

(** When [remove] reaches the parent object, the terminal entry is gone
    from it. *)
Lemma remove_walk_parent (target : value) (init : list string)
    (last : string) (root : value) (m : gmap string value) :
  remove_walk target init last = Done root →
  lookup_path target init = Some (VObj m) →
  lookup_path root init = Some (VObj (delete last m)).
Proof.
  revert target root.
  induction init as [|key rest IH]; intros target root; simpl.
  - intros Hrm [= ->]. simpl in Hrm. by injection Hrm as <-.
  - destruct target as [| | | | |m0]; try discriminate.
    destruct (m0 !! key) as [child|]; [|discriminate].
    intros (c & Hc & ->)%reinsert_done Hchild.
    rewrite lookup_insert_eq. eauto.
Qed.

(** A segment before the last that is not in the object reached: the
    [else] branch of the loop of [remove]. *)
Lemma remove_walk_missing (target : value) (pre : list string) (k : string)
    (post : list string) (last : string) (m : gmap string value) :
  lookup_path target pre = Some (VObj m) →
  m !! k = None →
  remove_walk target (pre ++ k :: post) last =
    if inherited k then Outside else Missing.
Proof.
  revert target.
  induction pre as [|k0 pre IH]; intros target; simpl.
  - intros [= ->] Hk. by rewrite Hk.
  - destruct target as [| | | | |m0]; try discriminate.
    destruct (m0 !! k0) as [child|]; [|discriminate].
    intros Hchild Hk. rewrite (IH child Hchild Hk).
    by destruct (inherited k).
Qed.

(** A second [remove] finds the tree as the first one left it. *)
Lemma remove_walk_idempotent (target : value) (init : list string)
    (last : string) (root : value) :
  remove_walk target init last = Done root →
  remove_walk root init last = Done root.
Proof.
  revert target root.
  induction init as [|key rest IH]; intros target root; simpl.
  - unfold delete_property.
    destruct target as [| |b|n|s|m]; try discriminate.
    + by intros [= <-].
    + by intros [= <-].
    + destruct (string_own s last) eqn:Hown; [discriminate|].
      intros [= <-]. by rewrite Hown.
    + intros [= <-]. by rewrite delete_delete_eq.
  - destruct target as [| | | | |m]; try discriminate.
    destruct (m !! key) as [child|].
    + intros (c & Hc & ->)%reinsert_done.
      rewrite lookup_insert_eq, (IH _ _ Hc). simpl.
      by rewrite insert_insert_eq.
    + destruct (inherited key); discriminate.
Qed.

(** ** [get] *)

Lemma get_walk_absent (tree : value) (path : list string) :
  absent tree path → plain path → ∃ r, get_walk tree path = Rejected r.
Proof.
  revert tree. induction path as [|segment rest IH]; intros tree Habs Hplain.
  - destruct Habs as [H|H]; simpl in H; [discriminate|].
    injection H as ->. simpl. eauto.
  - apply Forall_cons in Hplain as [Hseg Hrest]. simpl.
    destruct tree as [| | | | |m]; eauto.
    unfold absent in Habs. simpl in Habs.
    destruct (m !! segment) as [child|]; [by apply IH|].
    rewrite Hseg. destruct rest; simpl; eauto.
Qed.

(** ** [set] *)

Lemma set_executor_walk (c c' : cache) (key : string) (v : value) :
  key ≠ "" →
  set_executor c key v = (c', Resolved tt) →
  let path := split (separator (config_of c)) key in
  ∃ root, set_walk (cacheStorage c) (path_init path) (path_last path) v = Done root
          ∧ c' = with_storage c root.
Proof.
  intros Hkey. unfold set_executor.
  destruct (String.length key =? 0)%nat eqn:Hlen.
  { by apply length_zero_empty in Hlen. }
  cbv zeta.
  destruct (set_walk _ _ _ v) as [root| | |] eqn:Hwalk; try discriminate.
  - intros [= <-]. eauto.
  - by apply set_walk_never_missing in Hwalk.
Qed.

(** What [set] leaves behind when it resolves: the tree of the executor,
    the same configuration and clock. *)
Lemma set_resolved (c c' : cache) (key : string) (v ttl_arg : value) :
  set c key v ttl_arg = (c', Resolved tt) →
  ∃ c1, set_executor c key v = (c1, Resolved tt)
        ∧ cacheStorage c' = cacheStorage c1
        ∧ config_of c' = config_of c1.
Proof.
  unfold set.
  destruct (set_executor c key v) as [c1 [[]| | |]] eqn:Hexec; try discriminate.
  destruct (negb _); intros [= <-]; eauto.
Qed.

(** The timer of [set]: it is registered exactly when the effective ttl is
    falsy. *)
Lemma set_timers (c c' : cache) (key : string) (v ttl_arg : value) :
  set c key v ttl_arg = (c', Resolved tt) →
  timers c' =
    if truthy (or_else ttl_arg (ttl (config_of c))) then timers c
    else enqueue {| due := clock c + 1; expired := key |} (timers c).
Proof.
  unfold set.
  destruct (set_executor c key v) as [c1 [[]| | |]] eqn:Hexec; try discriminate.
  assert (timers c1 = timers c ∧ clock c1 = clock c) as [Ht Hc].
  { unfold set_executor in Hexec.
    destruct (String.length key =? 0)%nat; [by injection Hexec as <-|].
    destruct (set_walk _ _ _ _); try discriminate; by injection Hexec as <-. }
  destruct (truthy _) eqn:Htruthy; simpl; intros [= <-]; [done|].
  simpl. rewrite Ht, Hc. do 3 f_equal.
  unfold or_else in Htruthy. unfold or_else, timeout.
  destruct (truthy ttl_arg) eqn:Harg; [congruence|].
  destruct (ttl (config_of c)) as [| |b|n|s|m]; try done.
  simpl in Htruthy. apply negb_false_iff, Z.eqb_eq in Htruthy as ->. done.
Qed.

(** [set] succeeds on a fresh cache for every key made of plain
    segments. *)
Lemma set_walk_fresh (init : list string) (last : string) (v : value) :
  plain init → last ≠ "__proto__" →
  ∃ root, set_walk (VObj ∅) init last v = Done root.
Proof.
  intros Hplain Hlast. induction Hplain as [|key rest Hkey _ IH]; simpl.
  - unfold assign. apply String.eqb_neq in Hlast as ->. eauto.
  - rewrite lookup_empty, Hkey. destruct IH as [root ->]. simpl. eauto.
Qed.

Lemma plain_init (path : list string) : plain path → plain (path_init path).
Proof.
  unfold plain, path_init. induction 1 as [|k [|k' rest] Hk Hrest IH]; simpl.
  - constructor.
  - constructor.
  - by constructor.
Qed.

Lemma set_resolves_on_fresh (key : string) (v ttl_arg : value) :
  key ≠ "" →
  plain (split "/" key) →
  path_last (split "/" key) ≠ "__proto__" →
  snd (set (create None None) key v ttl_arg) = Resolved tt.
Proof.
  intros Hkey Hplain Hlast. unfold set, set_executor.
  destruct (String.length key =? 0)%nat eqn:Hlen.
  { by apply length_zero_empty in Hlen. }
  simpl.
  destruct (set_walk_fresh (path_init (split "/" key)) _ v
              (plain_init _ Hplain) Hlast) as [root ->].
  by destruct (negb _).
Qed.

(** [set] also succeeds when the whole path before the last segment is
    there and leads to an object. *)
Lemma set_walk_existing (target : value) (init : list string) (last : string)
    (v : value) (m : gmap string value) :
  lookup_path target init = Some (VObj m) → last ≠ "__proto__" →
  ∃ root, set_walk target init last v = Done root.
Proof.
  intros Hm Hlast. revert target Hm.
  induction init as [|key rest IH]; intros target; simpl.
  - intros [= ->]. unfold assign. apply String.eqb_neq in Hlast as ->. eauto.
  - destruct target as [| | | | |m0]; try discriminate.
    destruct (m0 !! key) as [child|]; [|discriminate].
    intros [root ->]%IH. simpl. eauto.
Qed.

Lemma plain_last (path : list string) :
  path ≠ [] → plain path → inherited (path_last path) = false.
Proof.
  intros Hne Hplain. unfold plain in Hplain.
  rewrite <- (path_init_last path Hne) in Hplain.
  apply Forall_app in Hplain as [_ Hlast]. by inversion Hlast.
Qed.

(** On a plain path, [set] gets through as soon as its cursor meets
    objects only. *)
Lemma set_walk_traversable (target : value) (init : list string)
    (last : string) (v : value) :
  plain init → inherited last = false →
  traversable target init = true →
  ∃ root, set_walk target init last v = Done root.
Proof.
  intros Hplain Hlast.
  assert (last ≠ "__proto__") as Hproto by (intros ->; discriminate).
  revert target. induction Hplain as [|key rest Hkey Hrest IH]; intros target.
  - destruct target as [| | | | |m]; try discriminate. intros _. simpl.
    unfold assign. apply String.eqb_neq in Hproto as ->. eauto.
  - destruct target as [| | | | |m]; try discriminate. simpl.
    destruct (m !! key) as [child|].
    + intros [root ->]%IH. simpl. eauto.
    + intros _. rewrite Hkey.
      destruct (set_walk_fresh rest last v Hrest Hproto) as [root ->].
      simpl. eauto.
Qed.

Lemma set_resolves (c : cache) (key : string) (v ttl_arg : value) :
  key ≠ "" →
  plain (split (separator (config_of c)) key) →
  traversable (cacheStorage c)
    (path_init (split (separator (config_of c)) key)) = true →
  ∃ c', set c key v ttl_arg = (c', Resolved tt).
Proof.
  intros Hkey Hplain Htrav.
  pose proof (split_nonempty (separator (config_of c)) key Hkey) as Hne.
  destruct (set_walk_traversable _ _ (path_last (split (separator (config_of c)) key))
              v (plain_init _ Hplain) (plain_last _ Hne Hplain) Htrav)
    as [root Hwalk].
  unfold set, set_executor.
  destruct (String.length key =? 0)%nat eqn:Hlen.
  { by apply length_zero_empty in Hlen. }
  rewrite Hwalk. destruct (negb _); eauto.
Qed.




(** X22: for every non-empty key none of whose segments is the name of a
    member of [Object.prototype], and every cache state (with no object
    held at two places, nor shared with the value) in which the root and
    every segment of the key before the last that is there hold objects:
    [set(key, value)]
    resolves; afterwards every proper prefix of the path leads to an
    object (the missing ones have been created), the value is at the end
    of the path, and every object that was on the path before keeps all
    its properties except the one the path goes through. *)
Theorem set_creates_path_and_keeps_siblings
    (c : cache) (key : string) (v ttl_arg : value) :
  key ≠ "" →
  plain (split (separator (config_of c)) key) →
  traversable (cacheStorage c)
    (path_init (split (separator (config_of c)) key)) = true →
  let path := split (separator (config_of c)) key in
  let c' := fst (set c key v ttl_arg) in
  snd (set c key v ttl_arg) = Resolved tt
  ∧ lookup_path (cacheStorage c') path = Some v
  ∧ (∀ pre k rest, path = pre ++ k :: rest →
       ∃ m, lookup_path (cacheStorage c') pre = Some (VObj m))
  ∧ (∀ pre k rest m, path = pre ++ k :: rest →
       lookup_path (cacheStorage c) pre = Some (VObj m) →
       ∃ m', lookup_path (cacheStorage c') pre = Some (VObj m')
             ∧ ∀ k', k' ≠ k → m' !! k' = m !! k').
Proof.
  intros Hkey Hplain Htrav path c'.
  destruct (set_resolves c key v ttl_arg Hkey Hplain Htrav) as [c1 Hset].
  unfold c'. rewrite Hset. simpl. split; [done|].
  apply set_resolved in Hset as (c2 & Hexec & Hst & _).
  apply set_executor_walk in Hexec as (root & Hwalk & ->); [|done].
  fold path in Hwalk. simpl in Hst. rewrite Hst. clear Hst.
  assert (path_init path ++ [path_last path] = path) as Hpath
    by by apply path_init_last, split_nonempty.
  split; [|split].
  - rewrite <- Hpath. by eapply set_walk_lookup.
  - intros pre k rest Hsplit. rewrite <- Hpath in Hsplit.
    by eapply set_walk_branches.
  - intros pre k rest m Hsplit Hpre. rewrite <- Hpath in Hsplit.
    by eapply set_walk_siblings.
Qed.

Lemma set_creates_path_witness :
  lookup_path
    (cacheStorage (fst (set Example.branch_at_a "a/b/c" (VStr "v") VUndefined)))
    ["a"; "b"; "c"] = Some (VStr "v").
Proof.
  apply (set_creates_path_and_keeps_siblings Example.branch_at_a "a/b/c"
           (VStr "v") VUndefined);
    [discriminate | repeat constructor | by vm_compute].
Defined.

(** C7: in the cache [{a: 'x'}] no segment of the key ['a/b'] is missing,
    and [set('a/b', 'v')] throws on the assignment to the string: the
    promise is rejected with a [TypeError], the cache is left as it was,
    and the value is not written at the terminal segment. *)
Theorem set_writes_nothing_below_leaf :
  cacheStorage Example.leaf_at_a = VObj {[ "a" := VStr "x" ]}
  ∧ set Example.leaf_at_a "a/b" (VStr "v") VUndefined
    = (Example.leaf_at_a, Rejected TypeError)
  ∧ lookup_path
      (cacheStorage (fst (set Example.leaf_at_a "a/b" (VStr "v") VUndefined)))
      ["a"; "b"] = None.
Proof. vm_compute. done. Qed.

(** ** [remove] *)

Lemma remove_state (c : cache) (key : string) :
  let path := split (separator (config_of c)) key in
  match remove_walk (cacheStorage c) (path_init path) (path_last path) with
  | Done root => remove c key = (with_storage c root, Pending)
  | Missing => remove c key = (c, Resolved tt)
  | Throw => remove c key = (c, Rejected TypeError)
  | Outside => remove c key = (c, Foreign)
  end.
Proof. unfold remove. cbv zeta. by destruct (remove_walk _ _ _). Qed.

Lemma remove_walk_reaches_parent (target : value) (init : list string)
    (last : string) (m : gmap string value) :
  lookup_path target init = Some (VObj m) →
  ∃ root, remove_walk target init last = Done root.
Proof.
  revert target. induction init as [|key rest IH]; intros target; simpl.
  - intros [= ->]. simpl. eauto.
  - destruct target as [| | | | |m0]; try discriminate.
    destruct (m0 !! key) as [child|]; [|discriminate].
    intros [root ->]%IH. simpl. eauto.
Qed.

(** X23: for every key and every cache state (with no object held at two
    places), [remove(key)] leaves the configuration, the clock and the
    timers; every object on the path keeps all its properties but the one
    the path goes through; when the path before the last segment leads to
    an object, that object loses exactly the entry of the last segment;
    when a segment before the last is absent from the object that the
    segments before it lead to, and is not the name of a member of
    [Object.prototype], the cache is left as it was and the promise
    resolves; and a second [remove(key)] leaves the cache as the first
    one left it. *)
Theorem remove_deletes_terminal_only (c : cache) (key : string) :
  let path := split (separator (config_of c)) key in
  let init := path_init path in
  let last := path_last path in
  let c' := fst (remove c key) in
  (config_of c' = config_of c ∧ clock c' = clock c ∧ timers c' = timers c)
  ∧ (∀ pre k rest m, init ++ [last] = pre ++ k :: rest →
       lookup_path (cacheStorage c) pre = Some (VObj m) →
       ∃ m', lookup_path (cacheStorage c') pre = Some (VObj m')
             ∧ ∀ k', k' ≠ k → m' !! k' = m !! k')
  ∧ (∀ m, lookup_path (cacheStorage c) init = Some (VObj m) →
       lookup_path (cacheStorage c') init = Some (VObj (delete last m)))
  ∧ (∀ pre k post m, init = pre ++ k :: post →
       lookup_path (cacheStorage c) pre = Some (VObj m) →
       m !! k = None → inherited k = false →
       remove c key = (c, Resolved tt))
  ∧ fst (remove c' key) = c'.
Proof.
  intros path init last c'.
  pose proof (remove_state c key) as Hstate. cbv zeta in Hstate.
  fold path in Hstate. fold init last in Hstate.
  destruct (remove_walk (cacheStorage c) init last) as [root| | |] eqn:Hwalk.
  - (* the parent was reached *)
    assert (c' = with_storage c root) as Hc' by (unfold c'; by rewrite Hstate).
    rewrite Hc'. simpl. refine (conj _ (conj _ (conj _ (conj _ _)))).
    + done.
    + intros pre k rest m Hsplit Hpre. by eapply remove_walk_siblings.
    + intros m Hm. by eapply remove_walk_parent.
    + intros pre k post m Hsplit Hpre Hk Hinh.
      rewrite Hsplit, (remove_walk_missing _ _ _ _ _ _ Hpre Hk), Hinh in Hwalk.
      discriminate.
    + unfold remove. simpl. fold path init last.
      by rewrite (remove_walk_idempotent _ _ _ _ Hwalk).
  - (* a segment is missing *)
    assert (c' = c) as Hc' by (unfold c'; by rewrite Hstate).
    rewrite Hc'. refine (conj _ (conj _ (conj _ (conj _ _)))).
    + done.
    + eauto.
    + intros m Hm.
      destruct (remove_walk_reaches_parent _ _ last _ Hm) as [root Hroot].
      congruence.
    + done.
    + by rewrite Hstate.
  - (* [in] or [delete] has thrown *)
    assert (c' = c) as Hc' by (unfold c'; by rewrite Hstate).
    rewrite Hc'. refine (conj _ (conj _ (conj _ (conj _ _)))).
    + done.
    + eauto.
    + intros m Hm.
      destruct (remove_walk_reaches_parent _ _ last _ Hm) as [root Hroot].
      congruence.
    + intros pre k post m Hsplit Hpre Hk Hinh.
      rewrite Hsplit, (remove_walk_missing _ _ _ _ _ _ Hpre Hk), Hinh in Hwalk.
      discriminate.
    + by rewrite Hstate.
  - (* the walk has left the tree *)
    assert (c' = c) as Hc' by (unfold c'; by rewrite Hstate).
    rewrite Hc'. refine (conj _ (conj _ (conj _ (conj _ _)))).
    + done.
    + eauto.
    + intros m Hm.
      destruct (remove_walk_reaches_parent _ _ last _ Hm) as [root Hroot].
      congruence.
    + intros pre k post m Hsplit Hpre Hk Hinh.
      rewrite Hsplit, (remove_walk_missing _ _ _ _ _ _ Hpre Hk), Hinh in Hwalk.
      discriminate.
    + by rewrite Hstate.
Qed.

Lemma remove_witness :
  remove Example.fresh "x/y" = (Example.fresh, Resolved tt)
  ∧ fst (remove (fst (remove Example.branch_at_a "a/x")) "a/x")
    = fst (remove Example.branch_at_a "a/x").
Proof.
  split.
  - destruct (remove_deletes_terminal_only Example.fresh "x/y")
      as (_ & _ & _ & Hmissing & _).
    apply (Hmissing [] "x" [] ∅); by vm_compute.
  - apply (remove_deletes_terminal_only Example.branch_at_a "a/x").
Defined.

(** C8: in the cache [{a: 'x'}] the segment [b] of the key ['a/b/c'] is
    missing, and [remove('a/b/c')] throws on [key in target] applied to
    the string: the promise is rejected with a [TypeError] (the cache
    being left as it was). *)
Theorem remove_rejects_below_leaf :
  cacheStorage Example.leaf_at_a = VObj {[ "a" := VStr "x" ]}
  ∧ lookup_path (cacheStorage Example.leaf_at_a) ["a"; "b"] = None
  ∧ remove Example.leaf_at_a "a/b/c" = (Example.leaf_at_a, Rejected TypeError).
Proof. vm_compute. done. Qed.

(** ** Replacing the whole tree *)

Lemma set_root (c : cache) (v ttl_arg : value) :
  snd (set c "" v ttl_arg) = Resolved tt
  ∧ cacheStorage (fst (set c "" v ttl_arg)) = v
  ∧ config_of (fst (set c "" v ttl_arg)) = config_of c.
Proof. unfold set. simpl. by destruct (negb _). Qed.

(** C5 (amended): for every value (with no object held at two places)
    and every prior state, [set("", value)] resolves and leaves the given
    value as the root storage, without walking any segment; what [get]
    then answers depends on that value alone and not on the old tree; and
    every non-empty key none of whose segments is the name of a member of
    [Object.prototype], and which is absent from the own properties that
    [get] copies from the value (those of an object; the characters of a
    string under their indices; none otherwise), is rejected by [get],
    whatever was set under the old tree. *)
Theorem set_empty_key_replaces_tree (c : cache) (v ttl_arg : value) :
  let c' := fst (set c "" v ttl_arg) in
  set_executor c "" v = (with_storage c v, Resolved tt)
  ∧ snd (set c "" v ttl_arg) = Resolved tt
  ∧ cacheStorage c' = v
  ∧ (∀ c2 key, cacheStorage c2 = v → config_of c2 = config_of c →
       get c' key = get c2 key)
  ∧ (∀ key, key ≠ "" →
       absent (VObj (assign_empty v)) (split (separator (config_of c)) key) →
       plain (split (separator (config_of c)) key) →
       ∃ r, get c' key = Rejected r).
Proof.
  intros c'. destruct (set_root c v ttl_arg) as (Hres & Hst & Hcfg).
  fold c' in Hst, Hcfg.
  refine (conj _ (conj Hres (conj Hst (conj _ _)))).
  - done.
  - intros c2 key Hst2 Hcfg2. unfold get. by rewrite Hst, Hst2, Hcfg, Hcfg2.
  - intros key _ Habs Hplain. unfold get. rewrite Hst, Hcfg.
    by apply get_walk_absent.
Qed.

(** C5, as stated, fails.  The key ['0'] was set under the old tree and
    the new root, the text ['hello'], is a leaf without entries; yet
    [get('0')] resolves, with the first character, which [Object.assign]
    copies from the string.  And the key ['toString'] was set under the
    old tree and is absent from the new root [{}], yet [get('toString')]
    is not rejected: it finds the member that the copy of the root
    inherits from [Object.prototype]. *)
Lemma set_empty_key_counterexample :
  (get (fst (set Example.fresh "0" (VStr "old") VUndefined)) "0"
     = Resolved (VStr "old")
   ∧ absent (VStr "hello") ["0"]
   ∧ get (fst (set (fst (set Example.fresh "0" (VStr "old") VUndefined))
                 "" (VStr "hello") VUndefined)) "0" = Resolved (VStr "h"))
  ∧
  (get (fst (set Example.fresh "toString" (VStr "old") VUndefined)) "toString"
     = Resolved (VStr "old")
   ∧ absent (VObj ∅) ["toString"]
   ∧ get (fst (set (fst (set Example.fresh "toString" (VStr "old") VUndefined))
                 "" (VObj ∅) VUndefined)) "toString" = Foreign).
Proof.
  split; (split; [by vm_compute|]; split; [left; by vm_compute | by vm_compute]).
Qed.

Lemma set_empty_key_witness :
  ∃ r, get (fst (set Example.branch_at_a "" (VObj {[ "k" := VStr "new" ]})
                   VUndefined)) "a/x" = Rejected r.
Proof.
  apply (set_empty_key_replaces_tree Example.branch_at_a
           (VObj {[ "k" := VStr "new" ]}) VUndefined).
  - discriminate.
  - left. by vm_compute.
  - repeat constructor.
Defined.

(** ** Expiry *)

(** A [set] whose effective ttl is truthy registers no timer. *)
Lemma set_truthy_ttl_no_timer (c c' : cache) (key : string) (v ttl_arg : value) :
  truthy (or_else ttl_arg (ttl (config_of c))) = true →
  set c key v ttl_arg = (c', Resolved tt) →
  timers c' = timers c.
Proof. intros Httl Hset. by rewrite (set_timers _ _ _ _ _ Hset), Httl. Qed.

(** A [set] whose effective ttl is falsy registers a timer for the next
    millisecond, whatever ttl was passed. *)
Lemma set_falsy_ttl_timer (c c' : cache) (key : string) (v ttl_arg : value) :
  truthy ttl_arg = false →
  truthy (ttl (config_of c)) = false →
  set c key v ttl_arg = (c', Resolved tt) →
  timers c' = enqueue {| due := clock c + 1; expired := key |} (timers c).
Proof.
  intros Harg Hcfg Hset. rewrite (set_timers _ _ _ _ _ Hset).
  unfold or_else. by rewrite Harg, Hcfg.
Qed.

(** Without pending timers the passing of time changes nothing that [get]
    reads. *)
Lemma elapse_no_timers (c : cache) (ms : Z) (key : string) :
  timers c = [] → get (elapse ms c) key = get c key.
Proof. intros H. unfold elapse, get. rewrite H. done. Qed.

(** C1: [set('a', 'v', 1000)] on a new cache resolves without a timer, and
    after 2000 ms, or any other time, [get('a')] still resolves with
    ['v']. *)
Theorem set_with_ttl_never_expires :
  set Example.fresh "a" (VStr "v") (VNum 1000)
    = (Example.leaf_at_a_forever, Resolved tt)
  ∧ timers Example.leaf_at_a_forever = []
  ∧ get (elapse 2000 Example.leaf_at_a_forever) "a" = Resolved (VStr "v")
  ∧ ∀ ms, get (elapse ms Example.leaf_at_a_forever) "a" = Resolved (VStr "v").
Proof.
  refine (conj _ (conj _ (conj _ _))); [by vm_compute ..|].
  intros ms. by rewrite elapse_no_timers.
Qed.

(** C2: in a cache whose configured ttl is [false] (the cache of a
    [TreeDB] made without options), [set('a', 'v', false)] and
    [set('a', 'v', 0)] each register a timer that is due after one
    millisecond; when it has run, [get('a')] is a miss. *)
Theorem set_with_false_ttl_expires :
  timers (fst (set Example.unpinned "a" (VStr "v") (VBool false)))
    = [ {| due := 1; expired := "a" |} ]
  ∧ get (fst (set Example.unpinned "a" (VStr "v") (VBool false))) "a"
    = Resolved (VStr "v")
  ∧ get (elapse 1 (fst (set Example.unpinned "a" (VStr "v") (VBool false)))) "a"
    = Rejected ReferenceError
  ∧ timers (fst (set Example.unpinned "a" (VStr "v") (VNum 0)))
    = [ {| due := 1; expired := "a" |} ]
  ∧ get (elapse 1 (fst (set Example.unpinned "a" (VStr "v") (VNum 0)))) "a"
    = Rejected ReferenceError.
Proof. vm_compute. done. Qed.

(** C3: in the cache [{a: 'x'}], [set('a/b/c', 'v')], [set('a/b', 'v')]
    and [remove('a/b/c')] are rejected with a [TypeError]; so is a [set]
    below a key that holds [undefined]. *)
Theorem set_and_remove_reject_below_leaf :
  cacheStorage Example.leaf_at_a = VObj {[ "a" := VStr "x" ]}
  ∧ snd (set Example.leaf_at_a "a/b/c" (VStr "v") VUndefined) = Rejected TypeError
  ∧ snd (set Example.leaf_at_a "a/b" (VStr "v") VUndefined) = Rejected TypeError
  ∧ snd (remove Example.leaf_at_a "a/b/c") = Rejected TypeError
  ∧ snd (set (fst (set Example.fresh "x" VUndefined VUndefined)) "x/y"
           VUndefined VUndefined) = Rejected TypeError.
Proof. vm_compute. done. Qed.

(** * Properties of the tree reader *)

Section Reader.
Context {fs : TreeDB.FileSystem} {path : TreeDB.Path}.
Import TreeDB.

Lemma placeholders_from (childNodes : list string) (sub : gmap string value)
    (k : string) (x : value) :
  foldl (fun sub child => <[child := VNull]> sub) sub childNodes !! k = Some x →
  k ∈ childNodes ∨ sub !! k = Some x.
Proof.
  revert sub. induction childNodes as [|child rest IH]; intros sub; simpl.
  - auto.
  - intros [Hin|Hsub]%IH; [left; by right|].
    destruct (decide (child = k)) as [->|Hne].
    + left; by left.
    + right. by rewrite lookup_insert_ne in Hsub.
Qed.

Lemma placeholders_lookup (childNodes : list string) (k : string) (x : value) :
  placeholders childNodes !! k = Some x → k ∈ childNodes.
Proof. intros [H|H]%placeholders_from; [done|]. by rewrite lookup_empty in H. Qed.

Lemma entries_lookup (read : string → option value) (nodePath : string)
    (childNodes : list string) (children : gmap string value)
    (k : string) (tree : value) :
  entries read nodePath childNodes = Some children →
  children !! k = Some tree →
  read (join [nodePath; k]) = Some tree.
Proof.
  revert children. induction childNodes as [|child rest IH]; intros children; simpl.
  - intros [= <-]. by rewrite lookup_empty.
  - destruct (String.eqb _ child); [|discriminate].
    destruct (read (join [nodePath; child])) as [t|] eqn:Hread; [|discriminate].
    destruct (entries read nodePath rest) as [m|]; [|discriminate].
    intros [= <-]. destruct (decide (child = k)) as [->|Hne].
    + rewrite lookup_insert_eq. congruence.
    + rewrite lookup_insert_ne by done. by apply IH.
Qed.

Lemma entries_defined (read : string → option value) (nodePath : string)
    (childNodes : list string) (children : gmap string value) (k : string) :
  entries read nodePath childNodes = Some children →
  k ∈ childNodes → is_Some (children !! k).
Proof.
  revert children. induction childNodes as [|child rest IH]; intros children; simpl.
  - intros _ H. by apply elem_of_nil in H.
  - destruct (String.eqb _ child); [|discriminate].
    destruct (read (join [nodePath; child])) as [t|]; [|discriminate].
    destruct (entries read nodePath rest) as [m|]; [|discriminate].
    intros [= <-] Hin. destruct (decide (child = k)) as [->|Hne].
    + rewrite lookup_insert_eq. eauto.
    + rewrite lookup_insert_ne by done. apply IH; [done|].
      apply elem_of_cons in Hin as [Heq|Hin]; [congruence|done].
Qed.

(** The child reads of a directory add the children of the materialised
    tree to the shared object. *)
Lemma read_children_entries (fuel depth : nat) (nodePath : string)
    (childNodes : list string) (children sub : gmap string value) :
  (∀ q tree, materialize depth q = Some tree →
     ∀ branch, readBranch fuel q branch
               = Some (<[basename q := tree]> branch, Resolved tt)) →
  entries (materialize depth) nodePath childNodes = Some children →
  read_children (readBranch fuel) nodePath childNodes sub
    = Some (children ∪ sub, Resolved tt).
Proof.
  intros Hread. revert children sub.
  induction childNodes as [|child rest IH]; intros children sub; simpl.
  - intros [= <-]. by rewrite (left_id_L ∅ (∪)).
  - destruct (String.eqb _ child) eqn:Hbase; [|discriminate].
    apply String.eqb_eq in Hbase.
    destruct (materialize depth (join [nodePath; child])) as [t|] eqn:Ht;
      [|discriminate].
    destruct (entries (materialize depth) nodePath rest) as [m|] eqn:Hm;
      [|discriminate].
    intros [= <-].
    rewrite (Hread _ _ Ht), Hbase, (IH m _ eq_refl). simpl.
    do 2 f_equal. apply map_eq. intros k.
    rewrite !lookup_union. destruct (decide (child = k)) as [->|Hne].
    + rewrite !lookup_insert_eq.
      destruct (m !! k) as [t'|] eqn:Hk; [|by destruct (sub !! k)].
      rewrite (entries_lookup _ _ _ _ _ _ Hm Hk) in Ht. injection Ht as ->.
      by destruct (sub !! k).
    + by rewrite !lookup_insert_ne.
Qed.

(** The children of the materialised tree do not depend on the order in
    which the directory lists them, and the child reads leave the same
    object in whatever order their callbacks run. *)
Lemma entries_permutation (read : string → option value) (nodePath : string)
    (childNodes childNodes' : list string) (children : gmap string value) :
  childNodes ≡ₚ childNodes' →
  entries read nodePath childNodes = Some children →
  entries read nodePath childNodes' = Some children.
Proof.
  intros Hperm. revert children.
  induction Hperm as [|x l l' _ IH|x y l|l l' l'' _ IH1 _ IH2]; intros children.
  - done.
  - simpl. destruct (String.eqb _ x); [|done].
    destruct (read (join [nodePath; x])) as [t|]; [|done].
    destruct (entries read nodePath l) as [m|]; [|done].
    by rewrite (IH m eq_refl).
  - simpl. destruct (String.eqb _ y); [|done].
    destruct (read (join [nodePath; y])) as [ty|] eqn:Hy; [|done].
    destruct (String.eqb _ x); [|done].
    destruct (read (join [nodePath; x])) as [tx|] eqn:Hx; [|done].
    destruct (entries read nodePath l) as [m|]; [|done].
    intros [= <-]. f_equal. destruct (decide (x = y)) as [->|Hne].
    + congruence.
    + by apply insert_insert_ne.
  - eauto.
Qed.

Lemma read_children_any_order (fuel depth : nat) (nodePath : string)
    (childNodes childNodes' : list string) (children sub : gmap string value) :
  (∀ q tree, materialize depth q = Some tree →
     ∀ branch, readBranch fuel q branch
               = Some (<[basename q := tree]> branch, Resolved tt)) →
  entries (materialize depth) nodePath childNodes = Some children →
  childNodes ≡ₚ childNodes' →
  read_children (readBranch fuel) nodePath childNodes' sub
    = read_children (readBranch fuel) nodePath childNodes sub.
Proof.
  intros Hread Hentries Hperm.
  rewrite (read_children_entries _ _ _ _ _ _ Hread Hentries).
  apply (read_children_entries _ _ _ _ _ _ Hread).
  by apply (entries_permutation _ _ childNodes).
Qed.

(** [readBranch] stores the materialised tree under the base name of the
    node, whatever the accumulator holds, as soon as the fuel covers the
    depth of the subtree. *)
Lemma readBranch_materialize (depth : nat) (nodePath : string) (tree : value) :
  materialize depth nodePath = Some tree →
  ∀ fuel branch, (depth ≤ fuel)%nat →
    readBranch fuel nodePath branch
      = Some (<[basename nodePath := tree]> branch, Resolved tt).
Proof.
  revert nodePath tree.
  induction depth as [|depth IH]; intros nodePath tree; [discriminate|].
  intros Hmat [|fuel] branch Hfuel; [lia|]. simpl in *.
  destruct (lstat nodePath) as [st|]; [|discriminate].
  destruct (isFile st).
  { destruct (readFile nodePath); [|discriminate]. by injection Hmat as <-. }
  destruct (isDirectory st); [|discriminate].
  destruct (readdir nodePath) as [childNodes|]; [|discriminate].
  destruct (entries (materialize depth) nodePath childNodes)
    as [children|] eqn:Hentries; [|discriminate].
  injection Hmat as <-.
  rewrite (read_children_entries fuel depth _ _ children); [|by eauto with lia|done].
  do 4 f_equal. apply map_eq. intros k. rewrite lookup_union.
  destruct (children !! k) eqn:Hk; [by destruct (placeholders _ !! k)|].
  destruct (placeholders childNodes !! k) eqn:Hp; [|done].
  apply placeholders_lookup in Hp.
  destruct (entries_defined _ _ _ _ _ Hentries Hp) as [? ?]. congruence.
Qed.

Lemma materialize_directory (depth : nat) (nodePath : string)
    (childNodes : list string) :
  lstat nodePath = Ok (Stats false true) →
  readdir nodePath = Ok childNodes →
  materialize (S depth) nodePath
    = VObj <$> entries (materialize depth) nodePath childNodes.
Proof. intros Hstat Hlist. simpl. by rewrite Hstat, Hlist. Qed.

(** C6: a directory [dir] that lists the file [a] with the text "hello"
    and the directory [b], which lists the file [c] with the text
    "world", read by [readBranch] into an empty accumulator: the promise
    resolves and the accumulator holds [{a: "hello", b: {c: "world"}}]
    under the base name of [dir], and nothing else. *)
Theorem readBranch_round_trip (dir : string) (listing : list string) (fuel : nat) :
  lstat dir = Ok (Stats false true) →
  readdir dir = Ok listing →
  listing ≡ₚ ["a"; "b"] →
  lstat (join [dir; "a"]) = Ok (Stats true false) →
  readFile (join [dir; "a"]) = Ok "hello" →
  basename (join [dir; "a"]) = "a" →
  lstat (join [dir; "b"]) = Ok (Stats false true) →
  readdir (join [dir; "b"]) = Ok ["c"] →
  basename (join [dir; "b"]) = "b" →
  lstat (join [join [dir; "b"]; "c"]) = Ok (Stats true false) →
  readFile (join [join [dir; "b"]; "c"]) = Ok "world" →
  basename (join [join [dir; "b"]; "c"]) = "c" →
  (3 ≤ fuel)%nat →
  readBranch fuel dir ∅
    = Some ({[ basename dir :=
                 VObj (<["a" := VStr "hello"]>
                         {[ "b" := VObj {[ "c" := VStr "world" ]} ]}) ]},
            Resolved tt).
Proof.
  intros Hdir Hlist Hperm Ha Hatext Haname Hb Hblist Hbname Hc Hctext Hcname Hfuel.
  assert (materialize 1 (join [dir; "a"]) = Some (VStr "hello")) as Hma.
  { simpl. by rewrite Ha, Hatext. }
  assert (materialize 2 (join [dir; "b"])
          = Some (VObj {[ "c" := VStr "world" ]})) as Hmb.
  { simpl. rewrite Hb, Hblist. simpl. by rewrite Hcname, Hc, Hctext. }
  assert (materialize 2 (join [dir; "a"]) = Some (VStr "hello")) as Hma2.
  { simpl. by rewrite Ha, Hatext. }
  rewrite <- insert_empty. apply (readBranch_materialize 3); [|done].
  rewrite (materialize_directory 2 dir listing Hdir Hlist).
  apply Permutation_sym, Permutation_length_2_inv in Hperm as [-> | ->];
    cbn [entries]; rewrite Haname, Hbname, Hma2, Hmb; simpl.
  - done.
  - by do 2 f_equal.
Qed.

(** C9: when the [lstat] of the resolved path fails, [readPath] resolves
    with [undefined] if the code of the error is [ENOENT], and is rejected
    with that very error otherwise. *)
Theorem readPath_stat_failure (db : treedb) (nodePath : string) (error : reason) :
  lstat (join [root db; nodePath]) = Fail error →
  (code error = Some "ENOENT" →
     readPath db nodePath = Resolved (Value VUndefined))
  ∧ (code error ≠ Some "ENOENT" → readPath db nodePath = Rejected error).
Proof.
  intros Hstat. unfold readPath. rewrite Hstat. unfold on_error. split.
  - by intros ->.
  - intros Hcode. destruct (code error) as [c|]; [|done].
    destruct (String.eqb c "ENOENT") eqn:Heq; [|done].
    apply String.eqb_eq in Heq as ->. done.
Qed.

Lemma truthy_or_empty (nodePath : string) :
  (if truthy (VStr nodePath) then nodePath else "") = nodePath.
Proof. simpl. by destruct (String.eqb_spec nodePath "") as [->|]. Qed.

(** X24: when the trimmed path is a miss in the cache and the node it
    resolves to is a directory whose subtree can be read (within the
    depth the reader is given), [getBranch] resolves with an object that
    has one property, named by the base name of the resolved path and
    holding the materialised subtree, and leaves the cache as the call of
    [cache.set] with the trimmed path and that object leaves it, whether
    that call stores the object or not; for the empty path the object
    becomes the whole cache; and [loadDatabase], when its first stage
    succeeds and it reads the same directory as the root, of base name
    ['storage'], stores the subtree itself. *)
Theorem getBranch_wraps_subtree (db : treedb) (nodePath : string) (depth : nat)
    (sub : gmap string value) (miss : reason) (fuel : nat) :
  Cache.get (cache__ db) (trim nodePath) = Rejected miss →
  materialize depth (join [root db; trim nodePath]) = Some (VObj sub) →
  (depth ≤ fuel)%nat →
  let basePath := join [root db; trim nodePath] in
  let tree := VObj {[ basename basePath := VObj sub ]} in
  let cached := Cache.set (cache__ db) (trim nodePath) tree VUndefined in
  getBranch fuel db nodePath = Some (with_cache db (fst cached), Resolved tree)
  ∧ (trim nodePath = "" → cacheStorage (fst cached) = tree)
  ∧ (scaffold db = Ok tt → basePath = root db →
       basename (root db) = "storage" →
       loadDatabase fuel db
         = Some (with_cache db
                   (fst (Cache.set (cache__ db) "" (VObj sub) (VBool false))),
                 Resolved (VObj sub))
       ∧ cacheStorage (fst (Cache.set (cache__ db) "" (VObj sub) (VBool false)))
         = VObj sub).
Proof.
  intros Hmiss Hmat Hfuel basePath tree cached.
  pose proof (readBranch_materialize _ _ _ Hmat fuel ∅ Hfuel) as Hread.
  rewrite insert_empty in Hread. fold basePath in Hread.
  refine (conj _ (conj _ _)).
  - unfold getBranch. cbv zeta. rewrite Hmiss, truthy_or_empty.
    fold basePath. by rewrite Hread.
  - intros Hkey. unfold cached. rewrite Hkey. apply set_root.
  - intros Hscaffold Hroot Hname. split; [|apply set_root].
    unfold loadDatabase. rewrite Hscaffold, <- Hroot, Hread.
    unfold storage_of. rewrite Hroot, Hname. by rewrite lookup_singleton_eq.
Qed.

End Reader.

Lemma readBranch_round_trip_witness :
  @TreeDB.readBranch Example.disk Example.posix 3 "/db/storage" ∅
    = Some ({[ "storage" :=
                 VObj (<["a" := VStr "hello"]>
                         {[ "b" := VObj {[ "c" := VStr "world" ]} ]}) ]},
            Resolved tt).
Proof.
  apply (@readBranch_round_trip Example.disk Example.posix
           "/db/storage" ["a"; "b"] 3); by vm_compute.
Defined.

Lemma readPath_stat_failure_witness :
  @TreeDB.readPath Example.disk Example.posix Example.db "missing"
    = Resolved (TreeDB.Value VUndefined)
  ∧ @TreeDB.readPath Example.disk Example.posix Example.db "locked"
    = Rejected Example.EACCES.
Proof.
  split.
  - apply (@readPath_stat_failure Example.disk Example.posix Example.db
             "missing" Example.ENOENT); by vm_compute.
  - apply (@readPath_stat_failure Example.disk Example.posix Example.db
             "locked" Example.EACCES); [by vm_compute | discriminate].
Defined.

Lemma getBranch_wraps_subtree_witness :
  @TreeDB.getBranch Example.disk Example.posix 2 Example.db "/b"
    = Some (TreeDB.with_cache Example.db
              (fst (Cache.set (TreeDB.cache__ Example.db) "b"
                      (VObj {[ "b" := VObj {[ "c" := VStr "world" ]} ]})
                      VUndefined)),
            Resolved (VObj {[ "b" := VObj {[ "c" := VStr "world" ]} ]}))
  ∧ cacheStorage
      (fst (Cache.set (TreeDB.cache__ Example.db) ""
              (VObj {[ "storage" := VObj Example.storage ]}) VUndefined))
    = VObj {[ "storage" := VObj Example.storage ]}
  ∧ cacheStorage
      (fst (Cache.set (TreeDB.cache__ Example.db) "" (VObj Example.storage)
              (VBool false)))
    = VObj Example.storage.
Proof.
  split.
  - apply (@getBranch_wraps_subtree Example.disk Example.posix Example.db "/b" 2
             {[ "c" := VStr "world" ]} ReferenceError 2);
      [by vm_compute .. | lia].
  - destruct (@getBranch_wraps_subtree Example.disk Example.posix Example.db ""
                3 Example.storage ReferenceError 3)
      as (_ & Hwrapped & Hbootstrap); [by vm_compute .. | lia |].
    split.
    + by apply Hwrapped.
    + by apply Hbootstrap; vm_compute.
Defined.

(** C10: with the cache [{a: 'x'}] and a storage in which [a/b] is a
    directory holding the file [c], the path ['a/b'] is a miss and the
    subtree can be read, and [getBranch('a/b')] resolves with the wrapped
    subtree; but the [cache.set] it issues throws on the assignment to
    the string, nobody looks at the rejected promise, and the cache is
    what it was: nothing is cached under the path, and the same
    [getBranch] is a miss again. *)
Theorem getBranch_caches_nothing_below_leaf :
  cacheStorage (TreeDB.cache__ Example.stale) = VObj {[ "a" := VStr "x" ]}
  ∧ Cache.get (TreeDB.cache__ Example.stale) "a/b" = Rejected NoReason
  ∧ @TreeDB.materialize Example.changed Example.posix 2 "/db/storage/a/b"
    = Some (VObj {[ "c" := VStr "world" ]})
  ∧ @TreeDB.getBranch Example.changed Example.posix 3 Example.stale "a/b"
    = Some (Example.stale,
            Resolved (VObj {[ "b" := VObj {[ "c" := VStr "world" ]} ]}))
  ∧ Cache.set (TreeDB.cache__ Example.stale) "a/b"
      (VObj {[ "b" := VObj {[ "c" := VStr "world" ]} ]}) VUndefined
    = (TreeDB.cache__ Example.stale, Rejected TypeError).
Proof. vm_compute. done. Qed.

(** * Further properties of the cache *)

(** What [get] finds at the end of the path that [set] has written is the
    value itself, [undefined] included. *)
Lemma get_walk_set_walk (target : value) (init : list string)
    (last : string) (v root : value) :
  set_walk target init last v = Done root →
  get_walk root (init ++ [last]) = get_walk v [].
Proof.
  revert target root.
  induction init as [|key rest IH]; intros target root; simpl.
  - unfold assign. destruct target as [| | | | |m]; try discriminate.
    destruct (String.eqb last "__proto__"); [discriminate|].
    intros [= <-]. by rewrite lookup_insert_eq.
  - destruct target as [| | | | |m]; try discriminate.
    destruct (m !! key) as [child|].
    + intros (c & Hc & ->)%reinsert_done. rewrite lookup_insert_eq. eauto.
    + destruct (inherited key); [discriminate|].
      intros (c & Hc & ->)%reinsert_done. rewrite lookup_insert_eq. eauto.
Qed.

(** The state that a resolved [set] leaves, in terms of the walk. *)
Lemma set_resolved_walk (c c' : cache) (key : string) (v ttl_arg : value) :
  key ≠ "" →
  set c key v ttl_arg = (c', Resolved tt) →
  ∃ root,
    set_walk (cacheStorage c)
      (path_init (split (separator (config_of c)) key))
      (path_last (split (separator (config_of c)) key)) v = Done root
    ∧ cacheStorage c' = root
    ∧ config_of c' = config_of c.
Proof.
  intros Hkey (c1 & Hexec & Hst & Hcfg)%set_resolved.
  apply set_executor_walk in Hexec as (root & Hwalk & ->); [|done].
  simpl in Hst, Hcfg. eauto.
Qed.

Lemma set_clock (c c' : cache) (key : string) (v ttl_arg : value)
    (settled : outcome unit) :
  set c key v ttl_arg = (c', settled) → clock c' = clock c.
Proof.
  unfold set, set_executor.
  destruct (String.length key =? 0)%nat.
  { destruct (negb _); by intros [= <- _]. }
  destruct (set_walk _ _ _ _); try by intros [= <- _].
  - destruct (negb _); by intros [= <- _].
  - destruct (negb _); by intros [= <- _].
Qed.

Lemma get_storage (c c' : cache) (key : string) :
  cacheStorage c' = cacheStorage c → config_of c' = config_of c →
  get c' key = get c key.
Proof. intros Hst Hcfg. unfold get. by rewrite Hst, Hcfg. Qed.

(** X1: in a cache that has just been created, with whatever options,
    [get] of a non-empty key is rejected, as long as the first segment is
    not the name of a member of [Object.prototype]. *)
Theorem get_on_new_cache_misses (ttl_option : option value)
    (separator_option : option string) (key : string) :
  key ≠ "" →
  inherited (hd "" (split (default "/" separator_option) key)) = false →
  ∃ r, get (create ttl_option separator_option) key = Rejected r.
Proof.
  intros Hkey Hfirst. unfold get. simpl.
  pose proof (split_nonempty (default "/" separator_option) key Hkey) as Hne.
  destruct (split (default "/" separator_option) key) as [|k rest]; [done|].
  simpl in *. rewrite lookup_empty, Hfirst. destruct rest; simpl; eauto.
Qed.

Lemma get_on_new_cache_misses_witness :
  ∃ r, get (create (Some (VBool false)) (Some ".")) "a.b" = Rejected r.
Proof.
  apply (get_on_new_cache_misses (Some (VBool false)) (Some ".") "a.b");
    [discriminate | by vm_compute].
Defined.

Lemma set_walk_target_object (target : value) (init : list string)
    (last : string) (v root : value) :
  set_walk target init last v = Done root → ∃ m, target = VObj m.
Proof.
  destruct init; simpl; unfold assign; destruct target; try discriminate; eauto.
Qed.

(** A key that [get] resolves leaves the path of a [set] at an object of
    the tree: the [set] does not change what that key resolves with. *)
Lemma get_walk_set_walk_other (target : value) (init : list string)
    (last : string) (v root : value) (pre : list string) (a b : string)
    (r1 r2 : list string) (w : value) :
  set_walk target init last v = Done root →
  init ++ [last] = pre ++ a :: r1 →
  a ≠ b →
  get_walk target (pre ++ b :: r2) = Resolved w →
  get_walk root (pre ++ b :: r2) = Resolved w.
Proof.
  intros Hset Hpath Hab. revert target root init Hset Hpath.
  induction pre as [|k pre IH]; intros target root init Hset Hpath Hget.
  - destruct (set_walk_target_object _ _ _ _ _ Hset) as [m ->].
    destruct (set_walk_siblings _ _ _ _ _ [] a r1 m Hset Hpath eq_refl)
      as (m' & Hroot & Hsame).
    simpl in Hroot. injection Hroot as ->.
    simpl in *. by rewrite (Hsame b).
  - apply split_path_head in Hpath as (init' & -> & Hpath).
    simpl in Hset, Hget. destruct target as [| | | | |m]; try discriminate.
    destruct (m !! k) as [child|].
    + apply reinsert_done in Hset as (c & Hc & ->).
      simpl. rewrite lookup_insert_eq. eauto.
    + destruct (inherited k); [discriminate|].
      destruct pre; discriminate.
Qed.

(** X2: in a cache state with no object held at two places (nor shared
    with the value that is set), for two
    keys none of whose segments is the name of a member of
    [Object.prototype], the first one not empty, whose paths have the
    same segments up to one where they differ: when [set] of the first
    key resolves and [get] of the second one resolved with a value before
    it, [get] of the second one resolves with the same value after it. *)
Theorem set_keeps_other_keys (c c' : cache) (key other : string)
    (v ttl_arg w : value) (pre : list string) (a b : string)
    (r1 r2 : list string) :
  key ≠ "" →
  plain (split (separator (config_of c)) key) →
  plain (split (separator (config_of c)) other) →
  split (separator (config_of c)) key = pre ++ a :: r1 →
  split (separator (config_of c)) other = pre ++ b :: r2 →
  a ≠ b →
  set c key v ttl_arg = (c', Resolved tt) →
  get c other = Resolved w →
  get c' other = Resolved w.
Proof.
  intros Hkey _ _ Hp Hq Hab (root & Hwalk & Hst & Hcfg)%set_resolved_walk Hget;
    [|done].
  destruct (set_walk_target_object _ _ _ _ _ Hwalk) as [m Hm].
  destruct (set_walk_done_object _ _ _ _ _ Hwalk) as [m' ->].
  unfold get in *. rewrite Hst, Hcfg, Hq. rewrite Hm, Hq in Hget.
  rewrite Hm in Hwalk. simpl in *.
  eapply get_walk_set_walk_other; eauto.
  rewrite <- Hp. apply path_init_last. by apply split_nonempty.
Qed.

Lemma set_keeps_other_keys_witness :
  get (fst (set Example.branch_at_a "a/b/c" (VStr "v") VUndefined)) "a/x"
    = Resolved (VStr "old").
Proof.
  apply (set_keeps_other_keys Example.branch_at_a _ "a/b/c" "a/x" (VStr "v")
           VUndefined (VStr "old") ["a"] "b" "x" ["c"] []);
    [discriminate | repeat constructor | repeat constructor
    | by vm_compute | by vm_compute | discriminate
    | by vm_compute | by vm_compute].
Defined.

Lemma get_walk_remove_walk_other (target : value) (init : list string)
    (last : string) (root : value) (pre : list string) (a b : string)
    (r1 r2 : list string) (w : value) :
  remove_walk target init last = Done root →
  init ++ [last] = pre ++ a :: r1 →
  a ≠ b →
  get_walk target (pre ++ b :: r2) = Resolved w →
  get_walk root (pre ++ b :: r2) = Resolved w.
Proof.
  intros Hrm Hpath Hab. revert target root init Hrm Hpath.
  induction pre as [|k pre IH]; intros target root init Hrm Hpath Hget.
  - destruct target as [| | | | |m]; try discriminate.
    destruct (remove_walk_siblings _ _ _ _ [] a r1 m Hrm Hpath eq_refl)
      as (m' & Hroot & Hsame).
    simpl in Hroot. injection Hroot as ->.
    simpl in *. by rewrite (Hsame b).
  - apply split_path_head in Hpath as (init' & -> & Hpath).
    simpl in Hrm, Hget. destruct target as [| | | | |m]; try discriminate.
    destruct (m !! k) as [child|].
    + apply reinsert_done in Hrm as (c & Hc & ->).
      simpl. rewrite lookup_insert_eq. eauto.
    + destruct (inherited k); discriminate.
Qed.

(** X3: in a cache state with no object held at two places, for two
    keys, the first one not empty and the second one without a segment
    that is the name of a member of [Object.prototype], whose paths have
    the same segments up to one where they differ: when [get] of the
    second key resolved with a value before [remove] of the first one, it
    resolves with the same value after it, however the [remove] ends. *)
Theorem remove_keeps_other_keys (c : cache) (key other : string) (w : value)
    (pre : list string) (a b : string) (r1 r2 : list string) :
  key ≠ "" →
  plain (split (separator (config_of c)) other) →
  split (separator (config_of c)) key = pre ++ a :: r1 →
  split (separator (config_of c)) other = pre ++ b :: r2 →
  a ≠ b →
  get c other = Resolved w →
  get (fst (remove c key)) other = Resolved w.
Proof.
  intros Hkey _ Hp Hq Hab Hget.
  pose proof (remove_state c key) as Hstate. cbv zeta in Hstate.
  destruct (remove_walk _ _ _) as [root| | |] eqn:Hwalk; rewrite Hstate; try done.
  unfold get in *. simpl. rewrite Hq in *.
  destruct (cacheStorage c) as [| |bo|n|s|m] eqn:Hm.
  1-5: destruct (split (separator (config_of c)) key) as [|k0 [|k1 rest]];
       simpl in Hwalk; unfold delete_property in Hwalk;
       try discriminate; try (by injection Hwalk as <-);
       destruct (string_own s _); try discriminate; by injection Hwalk as <-.
  assert (∃ m', root = VObj m') as [m' ->].
  { destruct (split (separator (config_of c)) key) as [|k0 [|k1 rest]];
      simpl in Hwalk; try (injection Hwalk as <-; eauto; fail);
      destruct (m !! k0); try (destruct (inherited k0); discriminate);
      apply reinsert_done in Hwalk as (? & _ & ->); eauto. }
  simpl in *. eapply get_walk_remove_walk_other; eauto.
  rewrite <- Hp. apply path_init_last. by apply split_nonempty.
Qed.

Lemma remove_keeps_other_keys_witness :
  get (fst (remove (fst (set Example.branch_at_a "a/b" (VStr "v") VUndefined))
              "a/x")) "a/b" = Resolved (VStr "v").
Proof.
  apply (remove_keeps_other_keys _ "a/x" "a/b" (VStr "v") ["a"] "x" "b" [] []);
    [discriminate | repeat constructor | by vm_compute | by vm_compute
    | discriminate | by vm_compute].
Defined.

(** After a [set], [remove] along the same path reaches the entry and
    takes it out again. *)
Lemma remove_walk_after_set_walk (target : value) (init : list string)
    (last : string) (v root : value) :
  inherited last = false →
  set_walk target init last v = Done root →
  ∃ root', remove_walk root init last = Done root'
           ∧ get_walk root' (init ++ [last]) = Rejected ReferenceError.
Proof.
  intros Hlast. revert target root.
  induction init as [|key rest IH]; intros target root; simpl.
  - unfold assign. destruct target as [| | | | |m]; try discriminate.
    destruct (String.eqb last "__proto__"); [discriminate|].
    intros [= <-]. eexists; split; [done|].
    simpl. by rewrite lookup_delete_eq, Hlast.
  - destruct target as [| | | | |m]; try discriminate.
    destruct (m !! key) as [child|].
    + intros (c & Hc & ->)%reinsert_done.
      destruct (IH _ _ Hc) as (c' & Hrm & Hget). simpl.
      rewrite lookup_insert_eq, Hrm. simpl. eexists; split; [done|].
      simpl. by rewrite lookup_insert_eq.
    + destruct (inherited key); [discriminate|].
      intros (c & Hc & ->)%reinsert_done.
      destruct (IH _ _ Hc) as (c' & Hrm & Hget). simpl.
      rewrite lookup_insert_eq, Hrm. simpl. eexists; split; [done|].
      simpl. by rewrite lookup_insert_eq.
Qed.

Lemma set_then_remove_then_get_aux (c c' : cache) (key : string)
    (v ttl_arg : value) :
  key ≠ "" →
  inherited (path_last (split (separator (config_of c)) key)) = false →
  set c key v ttl_arg = (c', Resolved tt) →
  snd (remove c' key) = Pending
  ∧ get (fst (remove c' key)) key = Rejected ReferenceError.
Proof.
  intros Hkey Hlast (root & Hwalk & Hst & Hcfg)%set_resolved_walk; [|done].
  destruct (remove_walk_after_set_walk _ _ _ _ _ Hlast Hwalk)
    as (root' & Hrm & Hget).
  pose proof (remove_state c' key) as Hstate. cbv zeta in Hstate.
  rewrite Hst, Hcfg, Hrm in Hstate. rewrite Hstate. split; [done|].
  unfold get. simpl. rewrite Hcfg.
  assert (∃ m, root' = VObj m) as [m ->].
  { destruct (path_init _) as [|k rest] in Hrm; simpl in Hrm.
    - destruct (set_walk_done_object _ _ _ _ _ Hwalk) as [m0 ->].
      injection Hrm as <-. eauto.
    - destruct (set_walk_done_object _ _ _ _ _ Hwalk) as [m0 ->].
      destruct (m0 !! k); [|destruct (inherited k); discriminate].
      apply reinsert_done in Hrm as (? & _ & ->). eauto. }
  simpl. rewrite <- (path_init_last (split (separator (config_of c)) key))
    by by apply split_nonempty.
  done.
Qed.

(** X4: when [set(key, value)] has resolved, a [remove(key)] deletes the
    entry (its promise staying pending) and the next [get(key)] is
    rejected, provided the last segment is not the name of a member of
    [Object.prototype]. *)
Theorem set_then_remove_then_get (c c' : cache) (key : string)
    (v ttl_arg : value) :
  key ≠ "" →
  inherited (path_last (split (separator (config_of c)) key)) = false →
  set c key v ttl_arg = (c', Resolved tt) →
  snd (remove c' key) = Pending
  ∧ get (fst (remove c' key)) key = Rejected ReferenceError.
Proof. apply set_then_remove_then_get_aux. Qed.

Lemma set_then_remove_then_get_witness :
  get (fst (remove (fst (set Example.fresh "a/b" (VStr "v") VUndefined)) "a/b"))
    "a/b" = Rejected ReferenceError.
Proof.
  apply (set_then_remove_then_get Example.fresh _ "a/b" (VStr "v") VUndefined);
    [discriminate | by vm_compute | by vm_compute].
Defined.

Lemma set_walk_again (target : value) (init : list string) (last : string)
    (v v' root : value) :
  set_walk target init last v = Done root →
  ∃ root', set_walk root init last v' = Done root'.
Proof.
  revert target root.
  induction init as [|key rest IH]; intros target root; simpl.
  - unfold assign. destruct target as [| | | | |m]; try discriminate.
    destruct (String.eqb last "__proto__") eqn:Hlast; [discriminate|].
    intros [= <-]. eauto.
  - destruct target as [| | | | |m]; try discriminate.
    destruct (m !! key) as [child|].
    + intros (c & Hc & ->)%reinsert_done.
      destruct (IH _ _ Hc) as [c' Hc']. simpl.
      rewrite lookup_insert_eq, Hc'. simpl. eauto.
    + destruct (inherited key); [discriminate|].
      intros (c & Hc & ->)%reinsert_done.
      destruct (IH _ _ Hc) as [c' Hc']. simpl.
      rewrite lookup_insert_eq, Hc'. simpl. eauto.
Qed.

(** X5: in a cache state with no object held at two places or below
    itself (nor shared with the values that are set), for a non-empty key none of whose segments is the name of a
    member of [Object.prototype]: when a first [set] of the key has
    resolved, a second [set] of the key right after it, with whatever
    ttl and with a value other than [undefined], resolves too, and [get]
    of the key then resolves with the second value. *)
Theorem set_overwrites (c c1 : cache) (key : string) (v1 t1 v2 t2 : value) :
  key ≠ "" →
  plain (split (separator (config_of c)) key) →
  v2 ≠ VUndefined →
  set c key v1 t1 = (c1, Resolved tt) →
  snd (set c1 key v2 t2) = Resolved tt
  ∧ get (fst (set c1 key v2 t2)) key = Resolved v2.
Proof.
  intros Hkey _ Hv (root & Hwalk & Hst & Hcfg)%set_resolved_walk; [|done].
  destruct (set_walk_again _ _ _ _ v2 _ Hwalk) as [root' Hwalk'].
  assert (set_executor c1 key v2 = (with_storage c1 root', Resolved tt)) as Hexec.
  { unfold set_executor.
    destruct (String.length key =? 0)%nat eqn:Hlen.
    { by apply length_zero_empty in Hlen. }
    by rewrite Hst, Hcfg, Hwalk'. }
  assert (snd (set c1 key v2 t2) = Resolved tt
          ∧ cacheStorage (fst (set c1 key v2 t2)) = root'
          ∧ config_of (fst (set c1 key v2 t2)) = config_of c) as (H1 & H2 & H3).
  { unfold set. rewrite Hexec. by destruct (negb _). }
  split; [done|]. unfold get. rewrite H2, H3.
  destruct (set_walk_done_object _ _ _ _ _ Hwalk') as [m ->]. simpl.
  rewrite <- (path_init_last (split (separator (config_of c)) key))
    by by apply split_nonempty.
  by eapply get_walk_after_set_walk.
Qed.

Lemma set_overwrites_witness :
  get (fst (set (fst (set Example.fresh "a/b" (VStr "one") VUndefined))
              "a/b" (VStr "two") (VBool false))) "a/b" = Resolved (VStr "two").
Proof.
  apply (set_overwrites Example.fresh _ "a/b" (VStr "one") VUndefined
           (VStr "two") (VBool false));
    [discriminate | repeat constructor | discriminate | by vm_compute].
Defined.

(** X6: the promise of [remove] is resolved on the no-op path only: a
    [remove] that resolves has changed nothing, and a [remove] whose path
    before the last segment leads to an object leaves its promise pending
    for ever. *)
Theorem remove_settles_only_without_deleting (c : cache) (key : string) :
  (∀ c', remove c key = (c', Resolved tt) → c' = c)
  ∧ (∀ m, lookup_path (cacheStorage c)
            (path_init (split (separator (config_of c)) key)) = Some (VObj m) →
          snd (remove c key) = Pending).
Proof.
  pose proof (remove_state c key) as Hstate. cbv zeta in Hstate. split.
  - intros c'. destruct (remove_walk _ _ _); rewrite Hstate; congruence.
  - intros m Hm.
    destruct (remove_walk_reaches_parent _ _
                (path_last (split (separator (config_of c)) key)) _ Hm)
      as [root Hroot].
    rewrite Hroot in Hstate. by rewrite Hstate.
Qed.

Lemma remove_settles_only_without_deleting_witness :
  snd (remove Example.branch_at_a "a/x") = Pending
  ∧ snd (remove Example.fresh "never") = Pending.
Proof.
  split.
  - apply (remove_settles_only_without_deleting Example.branch_at_a "a/x")
      with (m := {[ "x" := VStr "old" ]}). by vm_compute.
  - apply (remove_settles_only_without_deleting Example.fresh "never")
      with (m := ∅). by vm_compute.
Defined.

Lemma remove_config (c : cache) (key : string) :
  config_of (fst (remove c key)) = config_of c.
Proof.
  pose proof (remove_state c key) as Hstate. cbv zeta in Hstate.
  destruct (remove_walk _ _ _); by rewrite Hstate.
Qed.

(** X7: in a cache state with no object held at two places (nor shared
    with the value) and no timer pending, for a non-empty key none of whose segments is the name of a
    member of [Object.prototype]: when the ttl passed and the configured
    ttl are both falsy and [set(key, value)] resolves, [get(key)] right
    after the [set] resolves with the value, unless the value is
    [undefined]; and once a millisecond or more has gone by, the timer
    has removed the entry and [get(key)] is rejected. *)
Theorem falsy_ttl_entry_expires (c c' : cache) (key : string)
    (v ttl_arg : value) (ms : Z) :
  key ≠ "" →
  plain (split (separator (config_of c)) key) →
  truthy ttl_arg = false →
  truthy (ttl (config_of c)) = false →
  timers c = [] →
  set c key v ttl_arg = (c', Resolved tt) →
  (1 ≤ ms)%Z →
  (v ≠ VUndefined → get c' key = Resolved v)
  ∧ get (elapse ms c') key = Rejected ReferenceError.
Proof.
  intros Hkey Hplain Harg Hcfgttl Htimers Hset Hms.
  pose proof (plain_last _ (split_nonempty _ _ Hkey) Hplain) as Hlast.
  pose proof (set_falsy_ttl_timer _ _ _ _ _ Harg Hcfgttl Hset) as Hqueue.
  rewrite Htimers in Hqueue. simpl in Hqueue.
  destruct (set_then_remove_then_get_aux c c' key v ttl_arg Hkey Hlast Hset)
    as [_ Hgone].
  split.
  - destruct (set_resolved_walk _ _ _ _ _ Hkey Hset) as (root & Hwalk & Hst & Hcfg).
    unfold get. rewrite Hst, Hcfg.
    destruct (set_walk_done_object _ _ _ _ _ Hwalk) as [m ->]. simpl.
    rewrite <- (path_init_last (split (separator (config_of c)) key))
      by by apply split_nonempty.
    intros Hv. by eapply get_walk_after_set_walk.
  - rewrite <- Hgone. apply get_storage; [|by rewrite remove_config].
    unfold elapse. rewrite Hqueue. simpl.
    destruct (Z.leb_spec (clock c + 1) (clock c' + ms)) as [_|Hlt]; [done|].
    rewrite (set_clock _ _ _ _ _ _ Hset) in Hlt. lia.
Qed.

Lemma falsy_ttl_entry_expires_witness :
  get (elapse 5 (fst (set Example.unpinned "a/b" (VStr "v") VUndefined))) "a/b"
    = Rejected ReferenceError.
Proof.
  apply (falsy_ttl_entry_expires Example.unpinned _ "a/b" (VStr "v") VUndefined 5);
    [discriminate | repeat constructor | by vm_compute .. | lia].
Defined.

(** X8: in a cache state with no object held at two places (nor shared
    with the value) and no timer pending, for a non-empty key none of whose segments is the name of a
    member of [Object.prototype] and a value other than [undefined]: when
    the effective ttl (the one passed or else the configured one) is
    truthy and [set(key, value)] resolves, no timer is registered, and
    [get(key)] resolves with the value after any time (nothing else
    being done to the cache). *)
Theorem truthy_ttl_entry_never_expires (c c' : cache) (key : string)
    (v ttl_arg : value) (ms : Z) :
  key ≠ "" →
  plain (split (separator (config_of c)) key) →
  v ≠ VUndefined →
  truthy (or_else ttl_arg (ttl (config_of c))) = true →
  timers c = [] →
  set c key v ttl_arg = (c', Resolved tt) →
  timers c' = [] ∧ get (elapse ms c') key = Resolved v.
Proof.
  intros Hkey _ Hv Httl Htimers Hset.
  assert (timers c' = []) as Hnone.
  { by rewrite (set_truthy_ttl_no_timer _ _ _ _ _ Httl Hset). }
  split; [done|]. rewrite (elapse_no_timers _ _ _ Hnone).
  destruct (set_resolved_walk _ _ _ _ _ Hkey Hset) as (root & Hwalk & Hst & Hcfg).
  unfold get. rewrite Hst, Hcfg.
  destruct (set_walk_done_object _ _ _ _ _ Hwalk) as [m ->]. simpl.
  rewrite <- (path_init_last (split (separator (config_of c)) key))
    by by apply split_nonempty.
  by eapply get_walk_after_set_walk.
Qed.

Lemma truthy_ttl_entry_never_expires_witness :
  get (elapse 1000000 (fst (set Example.fresh "a/b" (VStr "v") (VNum 10))))
    "a/b" = Resolved (VStr "v").
Proof.
  apply (truthy_ttl_entry_never_expires Example.fresh _ "a/b" (VStr "v")
           (VNum 10) 1000000);
    [discriminate | repeat constructor | discriminate | by vm_compute ..].
Defined.

(** * Further properties of the tree reader *)

Section Reading.
Context {fs : TreeDB.FileSystem} {path : TreeDB.Path}.
Import TreeDB.

Lemma readBranch_other_keys (fuel : nat) (nodePath : string)
    (branch branch' : gmap string value) (settled : outcome unit) (k : string) :
  readBranch fuel nodePath branch = Some (branch', settled) →
  k ≠ basename nodePath →
  branch' !! k = branch !! k.
Proof.
  destruct fuel as [|fuel]; [discriminate|]. simpl. intros Hread Hk.
  destruct (lstat nodePath) as [st|]; [|by injection Hread as <-].
  destruct (isFile st).
  { destruct (readFile nodePath); injection Hread as <- _; [|done].
    by rewrite lookup_insert_ne. }
  destruct (isDirectory st); [|by injection Hread as <-].
  destruct (readdir nodePath) as [childNodes|]; [|by injection Hread as <-].
  destruct (read_children _ _ _ _) as [[sub children]|]; [|discriminate].
  injection Hread as <- _. by rewrite lookup_insert_ne.
Qed.

(** X9: whatever the node is and however the read ends, [readBranch]
    changes at most one property of the accumulator it is given: the one
    named by the base name of the node. *)
Theorem readBranch_writes_one_key (fuel : nat) (nodePath : string)
    (branch branch' : gmap string value) (settled : outcome unit) (k : string) :
  readBranch fuel nodePath branch = Some (branch', settled) →
  k ≠ basename nodePath →
  branch' !! k = branch !! k.
Proof. apply readBranch_other_keys. Qed.

(** X10: for every node whose subtree can be read within [depth] levels,
    every accumulator and every fuel that covers the depth, [readBranch]
    resolves and leaves the accumulator with the materialised tree (text
    for a file, an object of the entries for a directory) under the base
    name of the node. *)
Theorem readBranch_stores_materialized_tree (depth fuel : nat)
    (nodePath : string) (tree : value) (branch : gmap string value) :
  materialize depth nodePath = Some tree →
  (depth ≤ fuel)%nat →
  readBranch fuel nodePath branch
    = Some (<[basename nodePath := tree]> branch, Resolved tt).
Proof. intros Hmat Hfuel. by apply (readBranch_materialize depth). Qed.

Lemma all_resolved (a b : outcome unit) :
  all a b = Resolved tt → a = Resolved tt ∧ b = Resolved tt.
Proof. destruct a as [[]| | |], b as [[]| | |]; simpl; try discriminate; done. Qed.

Lemma all_rejected (a b : outcome unit) :
  (∃ e, a = Rejected e) ∨ (∃ e, b = Rejected e) → ∃ e, all a b = Rejected e.
Proof.
  intros [[e ->]|[e ->]]; simpl; [eauto|].
  destruct a; simpl; eauto.
Qed.

Lemma read_children_resolved
    (read : string → gmap string value → option (gmap string value * outcome unit))
    (nodePath : string) (childNodes : list string)
    (sub sub' : gmap string value) (child : string) :
  read_children read nodePath childNodes sub = Some (sub', Resolved tt) →
  child ∈ childNodes →
  ∃ s s', read (join [nodePath; child]) s = Some (s', Resolved tt).
Proof.
  revert sub. induction childNodes as [|c rest IH]; intros sub; simpl.
  - intros _ H. by apply elem_of_nil in H.
  - destruct (read (join [nodePath; c]) sub) as [[s1 first]|] eqn:Hc;
      [|discriminate].
    destruct (read_children read nodePath rest s1) as [[s2 others]|] eqn:Hrest;
      [|discriminate].
    intros [= <- Hall]. apply all_resolved in Hall as [-> ->].
    intros [->|Hin]%elem_of_cons; eauto.
Qed.

Lemma read_children_rejected
    (read : string → gmap string value → option (gmap string value * outcome unit))
    (nodePath : string) (childNodes : list string)
    (sub sub' : gmap string value) (settled : outcome unit) (child : string) :
  (∀ s s' o, read (join [nodePath; child]) s = Some (s', o) → ∃ e, o = Rejected e) →
  read_children read nodePath childNodes sub = Some (sub', settled) →
  child ∈ childNodes →
  ∃ e, settled = Rejected e.
Proof.
  intros Hchild. revert sub sub' settled.
  induction childNodes as [|c rest IH]; intros sub sub' settled; simpl.
  - intros _ H. by apply elem_of_nil in H.
  - destruct (read (join [nodePath; c]) sub) as [[s1 first]|] eqn:Hc;
      [|discriminate].
    destruct (read_children read nodePath rest s1) as [[s2 others]|] eqn:Hrest;
      [|discriminate].
    intros [= <- <-] [->|Hin]%elem_of_cons; apply all_rejected.
    + left. eauto.
    + right. eauto.
Qed.

(** X11: the promise of a directory read resolves only when the read of
    every listed child resolves. *)
Theorem readBranch_resolves_only_with_children (fuel : nat) (nodePath : string)
    (st : stats) (childNodes : list string) (branch acc : gmap string value)
    (child : string) :
  lstat nodePath = Ok st →
  isFile st = false →
  isDirectory st = true →
  readdir nodePath = Ok childNodes →
  readBranch (S fuel) nodePath branch = Some (acc, Resolved tt) →
  child ∈ childNodes →
  ∃ sub sub', readBranch fuel (join [nodePath; child]) sub
              = Some (sub', Resolved tt).
Proof.
  intros Hstat Hfile Hdir Hlist Hread Hin. simpl in Hread.
  rewrite Hstat, Hfile, Hdir, Hlist in Hread.
  destruct (read_children _ _ _ _) as [[sub children]|] eqn:Hchildren;
    [|discriminate].
  injection Hread as _ ->. by eapply read_children_resolved.
Qed.


Lemma getBranch_miss (fuel : nat) (db : treedb) (nodePath : string)
    (miss : reason) :
  Cache.get (cache__ db) (trim nodePath) = Rejected miss →
  getBranch fuel db nodePath =
    match readBranch fuel (join [root db; trim nodePath]) ∅ with
    | None => None
    | Some (tree, Resolved _) =>
        Some (with_cache db
                (fst (Cache.set (cache__ db) (trim nodePath) (VObj tree)
                        VUndefined)),
              Resolved (VObj tree))
    | Some (_, Rejected error) => Some (db, Rejected error)
    | Some (_, Pending) => Some (db, Pending)
    | Some (_, Foreign) => Some (db, Foreign)
    end.
Proof.
  intros Hmiss. unfold getBranch. cbv zeta. by rewrite Hmiss, truthy_or_empty.
Qed.

(** On a storage whose directories are nested to a finite depth,
    [readBranch] comes to an end as soon as the fuel covers the depth. *)
Lemma readBranch_bounded (depth : nat) :
  ∀ (fuel : nat) (nodePath : string) (branch : gmap string value),
    bounded depth nodePath = true → (depth ≤ fuel)%nat →
    ∃ acc settled, readBranch fuel nodePath branch = Some (acc, settled).
Proof.
  induction depth as [|depth IH]; intros fuel nodePath branch; [discriminate|].
  intros Hb Hfuel. destruct fuel as [|fuel]; [lia|].
  cbn [bounded] in Hb. cbn [readBranch].
  destruct (lstat nodePath) as [st|error]; [|eauto].
  destruct (isFile st). { destruct (readFile nodePath); eauto. }
  destruct (isDirectory st); [|eauto].
  destruct (readdir nodePath) as [childNodes|]; [|eauto].
  assert (∀ sub, ∃ sub' s,
            read_children (readBranch fuel) nodePath childNodes sub
              = Some (sub', s)) as Hchildren.
  { revert Hb.
    induction childNodes as [|c rest IHc]; intros Hb sub; simpl; [eauto|].
    simpl in Hb. apply andb_true_iff in Hb as [Hc Hrest].
    destruct (IH fuel (join [nodePath; c]) sub Hc) as (s1 & o1 & ->); [lia|].
    destruct (IHc Hrest s1) as (s2 & o2 & ->). eauto. }
  destruct (Hchildren (placeholders childNodes)) as (sub' & s & ->). eauto.
Qed.

Lemma getBranch_child_fault_settled (fuel : nat) (db db' : treedb)
    (nodePath : string) (miss error : reason) (st : stats)
    (childNodes : list string) (child : string) (settled : outcome value) :
  Cache.get (cache__ db) (trim nodePath) = Rejected miss →
  lstat (join [root db; trim nodePath]) = Ok st →
  isFile st = false →
  isDirectory st = true →
  readdir (join [root db; trim nodePath]) = Ok childNodes →
  child ∈ childNodes →
  lstat (join [join [root db; trim nodePath]; child]) = Fail error →
  code error ≠ Some "ENOENT" →
  getBranch fuel db nodePath = Some (db', settled) →
  db' = db ∧ ∃ e, settled = Rejected e.
Proof.
  intros Hmiss Hstat Hfile Hdir Hlist Hin Hchild Hcode.
  rewrite (getBranch_miss _ _ _ _ Hmiss).
  destruct fuel as [|fuel]; [discriminate|]. simpl.
  rewrite Hstat, Hfile, Hdir, Hlist.
  destruct (read_children _ _ _ _) as [[sub children]|] eqn:Hchildren;
    [|discriminate].
  assert (∀ s s' o,
            readBranch fuel (join [join [root db; trim nodePath]; child]) s
              = Some (s', o) → ∃ e, o = Rejected e) as Hrejects.
  { intros s s' o. destruct fuel as [|fuel]; [discriminate|]. simpl.
    rewrite Hchild. intros [= _ <-]. unfold on_error.
    destruct (code error) as [c|]; [|eauto].
    destruct (String.eqb_spec c "ENOENT") as [->|]; [done|eauto]. }
  destruct (read_children_rejected _ _ _ _ _ _ child Hrejects Hchildren Hin)
    as [e ->].
  intros [= <- <-]. eauto.
Qed.

(** X12: when the path is a miss in the cache and resolves to a directory
    (whose directories are nested to a finite depth) one of whose listed
    children cannot be examined (its [lstat] fails with an error other
    than [ENOENT]), [getBranch] is rejected and the cache is left as it
    was: nothing of the partial tree is stored. *)
Theorem getBranch_child_fault (fuel depth : nat) (db : treedb)
    (nodePath : string) (miss error : reason) (st : stats)
    (childNodes : list string) (child : string) :
  Cache.get (cache__ db) (trim nodePath) = Rejected miss →
  lstat (join [root db; trim nodePath]) = Ok st →
  isFile st = false →
  isDirectory st = true →
  readdir (join [root db; trim nodePath]) = Ok childNodes →
  child ∈ childNodes →
  lstat (join [join [root db; trim nodePath]; child]) = Fail error →
  code error ≠ Some "ENOENT" →
  bounded depth (join [root db; trim nodePath]) = true →
  (depth ≤ fuel)%nat →
  ∃ e, getBranch fuel db nodePath = Some (db, Rejected e).
Proof.
  intros Hmiss Hstat Hfile Hdir Hlist Hin Hchild Hcode Hbounded Hfuel.
  destruct (readBranch_bounded depth fuel _ ∅ Hbounded Hfuel)
    as (acc & s & Hread).
  assert (∃ db' settled, getBranch fuel db nodePath = Some (db', settled))
    as (db' & settled & Hget).
  { rewrite (getBranch_miss _ _ _ _ Hmiss), Hread. destruct s; eauto. }
  destruct (getBranch_child_fault_settled _ _ _ _ _ _ _ _ _ _ Hmiss Hstat Hfile
              Hdir Hlist Hin Hchild Hcode Hget) as [-> [e ->]].
  eauto.
Qed.

Lemma placeholders_member (childNodes : list string) (child : string) :
  child ∈ childNodes → placeholders childNodes !! child = Some VNull.
Proof.
  unfold placeholders.
  assert (∀ sub : gmap string value,
            sub !! child = Some VNull ∨ child ∈ childNodes →
            foldl (fun sub c => <[c := VNull]> sub) sub childNodes !! child
              = Some VNull) as Hgen.
  { induction childNodes as [|c rest IH]; intros sub; simpl.
    - intros [H|H]; [done|]. by apply elem_of_nil in H.
    - intros [H|[->|H]%elem_of_cons]; apply IH.
      + left. destruct (decide (c = child)) as [->|];
          [by rewrite lookup_insert_eq|by rewrite lookup_insert_ne].
      + left. by rewrite lookup_insert_eq.
      + by right. }
  intros Hin. apply Hgen. by right.
Qed.

Lemma read_children_keeps (fuel : nat) (nodePath : string)
    (childNodes : list string) (sub sub' : gmap string value)
    (settled : outcome unit) (k : string) (x : value) :
  (∀ c, c ∈ childNodes →
     basename (join [nodePath; c]) ≠ k
     ∨ ∃ error, lstat (join [nodePath; c]) = Fail error) →
  read_children (readBranch fuel) nodePath childNodes sub = Some (sub', settled) →
  sub !! k = Some x →
  sub' !! k = Some x.
Proof.
  revert sub sub' settled.
  induction childNodes as [|c rest IH]; intros sub sub' settled Hothers; simpl.
  - by intros [= <- _].
  - destruct (readBranch fuel (join [nodePath; c]) sub) as [[s1 first]|] eqn:Hc;
      [|discriminate].
    destruct (read_children _ nodePath rest s1) as [[s2 others]|] eqn:Hrest;
      [|discriminate].
    intros [= <- _] Hk. eapply IH; [|done|].
    + intros c' Hc'. apply Hothers. by right.
    + destruct (Hothers c) as [Hname|[error Hfail]]; [by left| |].
      * by rewrite (readBranch_other_keys _ _ _ _ _ k Hc).
      * destruct fuel as [|fuel]; [discriminate|]. simpl in Hc.
        rewrite Hfail in Hc. by injection Hc as <- _.
Qed.

(** X13: in a directory whose directories are nested to a finite depth,
    a child that the directory lists but whose [lstat] then fails (for
    instance because it has vanished in between) keeps the [null] that
    the loop has put under its name, provided no other listed child has
    that name as the base name of its path: the read of the directory
    ends with an object under the base name of the directory in which
    the name of the child holds [null]. *)
Theorem vanished_child_stays_null (fuel depth : nat) (nodePath : string)
    (st : stats) (childNodes : list string) (branch : gmap string value)
    (child : string) (error : reason) :
  lstat nodePath = Ok st →
  isFile st = false →
  isDirectory st = true →
  readdir nodePath = Ok childNodes →
  child ∈ childNodes →
  lstat (join [nodePath; child]) = Fail error →
  (∀ c, c ∈ childNodes → c ≠ child → basename (join [nodePath; c]) ≠ child) →
  bounded depth nodePath = true →
  (depth ≤ fuel)%nat →
  ∃ acc settled sub,
    readBranch fuel nodePath branch = Some (acc, settled)
    ∧ acc !! basename nodePath = Some (VObj sub)
    ∧ sub !! child = Some VNull.
Proof.
  intros Hstat Hfile Hdir Hlist Hin Hchild Hothers Hbounded Hfuel.
  destruct (readBranch_bounded depth fuel nodePath branch Hbounded Hfuel)
    as (acc & settled & Hread).
  exists acc, settled. revert Hread.
  destruct fuel as [|fuel]; [discriminate|]. simpl.
  rewrite Hstat, Hfile, Hdir, Hlist.
  destruct (read_children _ _ _ _) as [[sub children]|] eqn:Hchildren;
    [|discriminate].
  intros [= <- <-]. exists sub. split; [done|].
  rewrite lookup_insert_eq. split; [done|].
  eapply read_children_keeps; [|done|by apply placeholders_member].
  intros c Hc. destruct (decide (c = child)) as [->|Hne]; eauto.
Qed.

(** X14: when the node is a file that cannot be read, [readPath] is
    rejected with the error of [readFile] whatever its code is: unlike a
    failure of [lstat] or [readdir], an [ENOENT] here is not turned into
    [undefined]. *)
Theorem readPath_file_read_failure (db : treedb) (nodePath : string)
    (st : stats) (error : reason) :
  lstat (join [root db; nodePath]) = Ok st →
  isFile st = true →
  readFile (join [root db; nodePath]) = Fail error →
  readPath db nodePath = Rejected error.
Proof.
  intros Hstat Hfile Hread. unfold readPath, readLeaf.
  by rewrite Hstat, Hfile, Hread.
Qed.

Lemma get_after_set (c c' : cache) (key : string) (v ttl_arg : value) :
  key ≠ "" →
  Cache.set c key v ttl_arg = (c', Resolved tt) →
  Cache.get c' key = get_walk v [].
Proof.
  intros Hkey Hset.
  destruct (set_resolved_walk _ _ _ _ _ Hkey Hset) as (root & Hwalk & Hst & Hcfg).
  unfold Cache.get. rewrite Hst, Hcfg.
  destruct (set_walk_done_object _ _ _ _ _ Hwalk) as [m ->]. simpl.
  rewrite <- (path_init_last (split (separator (config_of c)) key))
    by by apply split_nonempty.
  by eapply get_walk_set_walk.
Qed.


Lemma split_empty_key (sep : string) : sep ≠ "" → split sep "" = [""].
Proof. intros Hsep. unfold split. by apply String.eqb_neq in Hsep as ->. Qed.

(** X15: when the trimmed path is not empty, has no segment that is the
    name of a member of [Object.prototype], is a miss in the cache (a
    state with no object held at two places, in which the root and every
    segment of the path before the last that is there hold objects) and
    resolves to a directory whose subtree can be read, [getBranch]
    resolves with the wrapped tree, the cache then holds that tree under
    the path, and a second [getBranch] of the same path right after it,
    before any timer runs, resolves with that same tree from the cache
    alone, whatever the disk holds by then. *)
Theorem getBranch_second_call_is_a_hit (fuel depth : nat) (db : treedb)
    (nodePath : string) (miss : reason) (sub : gmap string value) :
  let tree := VObj {[ basename (join [root db; trim nodePath]) := VObj sub ]} in
  Cache.get (cache__ db) (trim nodePath) = Rejected miss →
  materialize depth (join [root db; trim nodePath]) = Some (VObj sub) →
  (depth ≤ fuel)%nat →
  trim nodePath ≠ "" →
  plain (split (separator (config_of (cache__ db))) (trim nodePath)) →
  traversable (cacheStorage (cache__ db))
    (path_init (split (separator (config_of (cache__ db))) (trim nodePath)))
    = true →
  ∃ db', getBranch fuel db nodePath = Some (db', Resolved tree)
         ∧ Cache.get (cache__ db') (trim nodePath) = Resolved tree
         ∧ ∀ (fs2 : FileSystem) (path2 : Path) (fuel2 : nat),
             @getBranch fs2 path2 fuel2 db' nodePath
               = Some (db', Resolved tree).
Proof.
  intros tree Hmiss Hmat Hfuel Hkey Hplain Htrav.
  destruct (set_resolves (cache__ db) (trim nodePath) tree VUndefined
              Hkey Hplain Htrav) as [c1 Hset].
  exists (with_cache db c1).
  rewrite (getBranch_miss _ _ _ _ Hmiss),
    (readBranch_materialize _ _ _ Hmat fuel ∅ Hfuel), insert_empty.
  fold tree. rewrite Hset. simpl fst. simpl cache__.
  assert (Cache.get c1 (trim nodePath) = Resolved tree) as Hhit.
  { by rewrite (get_after_set (cache__ db) _ (trim nodePath) tree VUndefined
                  Hkey Hset). }
  refine (conj _ (conj Hhit _)); [done|].
  intros fs2 path2 fuel2. unfold getBranch. cbv zeta. simpl cache__.
  by rewrite Hhit.
Qed.

(** X16: with a non-empty separator, the tree that [getBranch('')] stores
    after a miss (the whole cache becomes the wrapped tree) does not make
    the empty path a hit, unless the base name of the root is empty: the
    next [getBranch('')] is a miss again and reads the disk again. *)
Theorem getBranch_root_is_read_again (fuel depth : nat) (db db' : treedb)
    (miss : reason) (sub : gmap string value) (settled : outcome value) :
  separator (config_of (cache__ db)) ≠ "" →
  basename (join [root db; ""]) ≠ "" →
  Cache.get (cache__ db) "" = Rejected miss →
  materialize depth (join [root db; ""]) = Some (VObj sub) →
  (depth ≤ fuel)%nat →
  getBranch fuel db "" = Some (db', settled) →
  cacheStorage (cache__ db') = VObj {[ basename (join [root db; ""]) := VObj sub ]}
  ∧ Cache.get (cache__ db') "" = Rejected ReferenceError.
Proof.
  intros Hsep Hname Hmiss Hmat Hfuel.
  rewrite (getBranch_miss _ _ "" _ Hmiss). simpl trim.
  rewrite (readBranch_materialize _ _ _ Hmat fuel ∅ Hfuel), insert_empty.
  intros [= <- _]. simpl cache__.
  destruct (set_root (cache__ db) (VObj {[ basename (join [root db; ""]) := VObj sub ]})
              VUndefined) as (_ & Hst & Hcfg).
  split; [done|]. unfold Cache.get. rewrite Hst, Hcfg, split_empty_key by done.
  simpl. by rewrite lookup_singleton_ne.
Qed.

Lemma remove_empty_key (c : cache) (m : gmap string value) :
  separator (config_of c) ≠ "" →
  cacheStorage c = VObj m →
  m !! "" = None →
  cacheStorage (fst (remove c "")) = VObj m.
Proof.
  intros Hsep Hst Hm. unfold remove. rewrite split_empty_key, Hst by done.
  simpl. by rewrite delete_id.
Qed.

(** X17: when the first stage of [loadDatabase] succeeds, the root, of
    base name ['storage'], is a directory whose subtree can be read and
    has no entry with the empty name, the separator of the cache is not
    empty and no timer is pending, then [loadDatabase] resolves with the
    subtree and stores it as the whole cache, and it is still the whole
    cache after any time (nothing else being done to the cache),
    whatever the configured ttl: either no timer is registered, or the
    timer removes the key [""] from the root, where there is no such
    entry. *)
Theorem bootstrap_tree_is_kept (fuel depth : nat) (db db' : treedb)
    (sub : gmap string value) (settled : outcome value) (ms : Z) :
  scaffold db = Ok tt →
  materialize depth (root db) = Some (VObj sub) →
  (depth ≤ fuel)%nat →
  basename (root db) = "storage" →
  separator (config_of (cache__ db)) ≠ "" →
  sub !! "" = None →
  timers (cache__ db) = [] →
  loadDatabase fuel db = Some (db', settled) →
  settled = Resolved (VObj sub)
  ∧ cacheStorage (cache__ db') = VObj sub
  ∧ cacheStorage (elapse ms (cache__ db')) = VObj sub.
Proof.
  intros Hscaffold Hmat Hfuel Hname Hsep Hsub Htimers. unfold loadDatabase.
  rewrite Hscaffold, (readBranch_materialize _ _ _ Hmat fuel ∅ Hfuel), insert_empty.
  unfold storage_of. rewrite Hname, lookup_singleton_eq. simpl default.
  intros [= <- <-]. simpl cache__. split; [done|].
  unfold Cache.set. simpl. unfold or_else. simpl.
  destruct (truthy (ttl (config_of (cache__ db)))); simpl.
  - split; [done|]. unfold elapse. simpl. by rewrite Htimers.
  - split; [done|]. unfold elapse. simpl. rewrite Htimers. simpl.
    destruct (_ <=? _)%Z; simpl; [|done].
    by apply remove_empty_key.
Qed.

Lemma getPath_miss (db : treedb) (nodePath : string) (miss : reason) :
  Cache.get (cache__ db) (trim nodePath) = Rejected miss →
  getPath db nodePath =
    match readPath db (trim nodePath) with
    | Resolved (Value v) =>
        Some (with_cache db
                (fst (Cache.set (cache__ db) (trim nodePath) v VUndefined)),
              Resolved (Value v))
    | Resolved (Names _) => None
    | Rejected error => Some (db, Rejected error)
    | Pending => Some (db, Pending)
    | Foreign => Some (db, Foreign)
    end.
Proof. intros Hmiss. unfold getPath. cbv zeta. by rewrite Hmiss. Qed.


(** X19: when the trimmed path is not empty, has no segment that is the
    name of a member of [Object.prototype], is a miss in the cache (a
    state with no object held at two places, in which the root and every
    segment of the path before the last that is there hold objects) and
    resolves to a file that can be read, [getPath] resolves with an
    object that holds the text under the base name of the file, and a
    [getPath] of the same path right after it, before any timer runs,
    resolves with that object from the cache alone, whatever the disk
    holds by then. *)
Theorem getPath_file_then_hit (db : treedb) (nodePath : string)
    (miss : reason) (st : stats) (text : string) :
  let leaf := VObj {[ basename (join [root db; trim nodePath]) := VStr text ]} in
  Cache.get (cache__ db) (trim nodePath) = Rejected miss →
  lstat (join [root db; trim nodePath]) = Ok st →
  isFile st = true →
  readFile (join [root db; trim nodePath]) = Ok text →
  trim nodePath ≠ "" →
  plain (split (separator (config_of (cache__ db))) (trim nodePath)) →
  traversable (cacheStorage (cache__ db))
    (path_init (split (separator (config_of (cache__ db))) (trim nodePath)))
    = true →
  ∃ db', getPath db nodePath = Some (db', Resolved (Value leaf))
         ∧ ∀ (fs2 : FileSystem) (path2 : Path),
             @getPath fs2 path2 db' nodePath
               = Some (db', Resolved (Value leaf)).
Proof.
  intros leaf Hmiss Hstat Hfile Hread Hkey Hplain Htrav.
  destruct (set_resolves (cache__ db) (trim nodePath) leaf VUndefined
              Hkey Hplain Htrav) as [c1 Hset].
  exists (with_cache db c1).
  rewrite (getPath_miss _ _ _ Hmiss).
  unfold readPath, readLeaf. rewrite Hstat, Hfile, Hread. fold leaf.
  rewrite Hset. simpl fst. split; [done|].
  assert (Cache.get c1 (trim nodePath) = Resolved leaf) as Hhit.
  { by rewrite (get_after_set (cache__ db) _ (trim nodePath) leaf VUndefined
                  Hkey Hset). }
  intros fs2 path2. unfold getPath. cbv zeta. simpl cache__. by rewrite Hhit.
Qed.

End Reading.

(** * Properties of the leaf writer *)

Section Writing.
Context {writer : TreeDB.FileWriter}.
Import TreeDB.



(** X21: when the write to the disk succeeds and the path as given is
    not empty, has no leading slash and no segment that is the name of a
    member of [Object.prototype], and the cache (a state with no object
    held at two places) holds objects at the root and at every segment
    of the path before the last that is there, [writeLeaf] resolves, and
    a [getPath] of the same string right after it, before any timer
    runs, resolves from the cache alone with the text as it was written,
    a string and not the object that a read of the file gives. *)
Theorem writeLeaf_then_getPath (db : treedb) (nodePath text : string) :
  writeFile nodePath text = Ok tt →
  nodePath ≠ "" →
  trim nodePath = nodePath →
  plain (split (separator (config_of (cache__ db))) nodePath) →
  traversable (cacheStorage (cache__ db))
    (path_init (split (separator (config_of (cache__ db))) nodePath)) = true →
  snd (writeLeaf db nodePath text) = Resolved tt
  ∧ ∀ (fs : FileSystem) (path : Path),
      getPath (fst (writeLeaf db nodePath text)) nodePath
        = Some (fst (writeLeaf db nodePath text), Resolved (Value (VStr text))).
Proof.
  intros Hwrite Hkey Htrim Hplain Htrav. unfold writeLeaf. rewrite Hwrite.
  destruct (set_resolves (cache__ db) nodePath (VStr text) VUndefined
              Hkey Hplain Htrav) as [c Hc].
  rewrite Hc. simpl. split; [done|].
  intros fs path. unfold getPath. cbv zeta. rewrite Htrim. simpl cache__.
  by rewrite (get_after_set _ _ _ _ _ Hkey Hc).
Qed.

End Writing.

(** ** Instances of the properties above on the example storage *)

Lemma readBranch_writes_one_key_witness :
  (<["storage" := VObj Example.storage]> {[ "other" := VStr "kept" ]}
     : gmap string value) !! "other"
  = ({[ "other" := VStr "kept" ]} : gmap string value) !! "other".
Proof.
  apply (@readBranch_writes_one_key Example.disk Example.posix 3 "/db/storage"
           {[ "other" := VStr "kept" ]} _ (Resolved tt) "other");
    [by vm_compute | by vm_compute].
Defined.

Lemma readBranch_stores_materialized_tree_witness :
  @TreeDB.readBranch Example.disk Example.posix 5 "/db/storage"
    {[ "other" := VStr "kept" ]}
  = Some (<["storage" := VObj Example.storage]> {[ "other" := VStr "kept" ]},
          Resolved tt).
Proof.
  apply (@readBranch_stores_materialized_tree Example.disk Example.posix 3 5
           "/db/storage" (VObj Example.storage)); [by vm_compute | lia].
Defined.

Lemma readBranch_resolves_only_with_children_witness :
  ∃ sub sub',
    @TreeDB.readBranch Example.disk Example.posix 2 "/db/storage/b" sub
      = Some (sub', Resolved tt).
Proof.
  apply (@readBranch_resolves_only_with_children Example.disk Example.posix 2
           "/db/storage" Example.directory ["a"; "b"] ∅
           {[ "storage" := VObj Example.storage ]} "b");
    try by vm_compute.
  set_solver.
Defined.

Lemma getBranch_child_fault_witness :
  ∃ e, @TreeDB.getBranch Example.racy Example.posix 5 Example.db "/broken"
       = Some (Example.db, Rejected e).
Proof.
  apply (@getBranch_child_fault Example.racy Example.posix 5 2 Example.db
           "/broken" ReferenceError Example.EACCES Example.directory
           ["locked"] "locked");
    [by vm_compute | by vm_compute | by vm_compute | by vm_compute
    | by vm_compute | set_solver | by vm_compute | discriminate
    | by vm_compute | lia].
Defined.

Lemma vanished_child_stays_null_witness :
  ∃ acc settled sub,
    @TreeDB.readBranch Example.racy Example.posix 3 "/db/storage" ∅
      = Some (acc, settled)
    ∧ acc !! "storage" = Some (VObj sub)
    ∧ sub !! "gone" = Some VNull.
Proof.
  apply (@vanished_child_stays_null Example.racy Example.posix 3 2
           "/db/storage" Example.directory ["a"; "gone"] ∅ "gone"
           Example.ENOENT);
    [by vm_compute | by vm_compute | by vm_compute | by vm_compute
    | set_solver | by vm_compute | | by vm_compute | lia].
  intros c [->|[->|Hc%elem_of_nil]%elem_of_cons]%elem_of_cons Hne;
    [by vm_compute | done | done].
Defined.

Lemma readPath_file_read_failure_witness :
  @TreeDB.readPath Example.racy Example.posix Example.db "secret"
    = Rejected Example.ENOENT.
Proof.
  apply (@readPath_file_read_failure Example.racy Example.posix Example.db
           "secret" Example.file Example.ENOENT); by vm_compute.
Defined.

Lemma getBranch_second_call_is_a_hit_witness :
  ∃ db',
    @TreeDB.getBranch Example.disk Example.posix 2 Example.db "/b"
      = Some (db', Resolved (VObj {[ "b" := VObj {[ "c" := VStr "world" ]} ]}))
    ∧ Cache.get (TreeDB.cache__ db') "b"
      = Resolved (VObj {[ "b" := VObj {[ "c" := VStr "world" ]} ]})
    ∧ ∀ (fs2 : TreeDB.FileSystem) (path2 : TreeDB.Path) (fuel2 : nat),
        @TreeDB.getBranch fs2 path2 fuel2 db' "/b"
          = Some (db',
                  Resolved (VObj {[ "b" := VObj {[ "c" := VStr "world" ]} ]})).
Proof.
  apply (@getBranch_second_call_is_a_hit Example.disk Example.posix 2 2
           Example.db "/b" ReferenceError {[ "c" := VStr "world" ]});
    [by vm_compute | by vm_compute | lia | discriminate
    | repeat constructor | by vm_compute].
Defined.

Lemma getBranch_root_is_read_again_witness :
  Cache.get
    (fst (Cache.set (TreeDB.cache__ Example.db) ""
            (VObj {[ "storage" := VObj Example.storage ]}) VUndefined)) ""
  = Rejected ReferenceError.
Proof.
  apply (@getBranch_root_is_read_again Example.disk Example.posix 3 3
           Example.db
           (TreeDB.with_cache Example.db
              (fst (Cache.set (TreeDB.cache__ Example.db) ""
                      (VObj {[ "storage" := VObj Example.storage ]})
                      VUndefined)))
           ReferenceError Example.storage
           (Resolved (VObj {[ "storage" := VObj Example.storage ]})));
    [discriminate | discriminate | by vm_compute | by vm_compute | lia
    | by vm_compute].
Defined.

Lemma bootstrap_tree_is_kept_witness :
  cacheStorage
    (elapse 1000
       (fst (Cache.set (TreeDB.cache__ Example.db) "" (VObj Example.storage)
               (VBool false))))
  = VObj Example.storage.
Proof.
  apply (@bootstrap_tree_is_kept Example.disk Example.posix 3 3 Example.db
           (TreeDB.with_cache Example.db
              (fst (Cache.set (TreeDB.cache__ Example.db) ""
                      (VObj Example.storage) (VBool false))))
           Example.storage (Resolved (VObj Example.storage)) 1000);
    [by vm_compute | by vm_compute | lia | by vm_compute | discriminate
    | by vm_compute | by vm_compute | by vm_compute].
Defined.


Lemma getPath_file_then_hit_witness :
  ∃ db',
    @TreeDB.getPath Example.disk Example.posix Example.db "a"
      = Some (db', Resolved (TreeDB.Value (VObj {[ "a" := VStr "hello" ]})))
    ∧ ∀ (fs2 : TreeDB.FileSystem) (path2 : TreeDB.Path),
        @TreeDB.getPath fs2 path2 db' "a"
          = Some (db', Resolved (TreeDB.Value (VObj {[ "a" := VStr "hello" ]}))).
Proof.
  apply (@getPath_file_then_hit Example.disk Example.posix Example.db
           "a" ReferenceError Example.file "hello");
    [by vm_compute | by vm_compute | by vm_compute | by vm_compute
    | discriminate | repeat constructor | by vm_compute].
Defined.


Lemma writeLeaf_then_getPath_witness :
  @TreeDB.getPath Example.nothing Example.posix
    (fst (@TreeDB.writeLeaf Example.writable Example.db "a" "text")) "a"
  = Some (fst (@TreeDB.writeLeaf Example.writable Example.db "a" "text"),
          Resolved (TreeDB.Value (VStr "text"))).
Proof.
  apply (@writeLeaf_then_getPath Example.writable Example.db "a" "text");
    [by vm_compute | discriminate | by vm_compute | repeat constructor
    | by vm_compute].
Defined.
